(** * A network metrics backend: queue, reconnecting worker, buffered flushes

    Shallow embedding of the Go package [net_stats]: the configuration and
    its defaults, the bounded job queue shared by the producers and the
    worker goroutine, the connection manager with its exponential backoff,
    the buffering and flushing engine and the failure callback with its
    panic isolation.
    The text scanning helpers of the package [linux] come after it.

    Modelling conventions.
    - [int] and [time.Duration] are 64-bit signed integers, carried as [Z];
      the only arithmetic that can leave the range is the doubling in
      [backoff], whose wrap-around is written out with [wrap64].
    - The worker's [bytes.Buffer] is the list of its unread bytes.
    - Everything the program does to the outside world is appended to a
      trace of events, in the order it happens.
    - The outcome of an external call (the dial function, a method of a
      connection, the failure callback) is a function of the call's
      arguments and of the number of earlier calls of the same kind in the
      trace, so that any sequence of outcomes can be described.
    - A Go panic is a result of its own ([Panic]); [recover] in a deferred
      function turns it back into a normal return.  A panic carries a
      non-nil value (what [recover] returns), rendered as a string.
    - Loops that need not terminate ([connect]) take fuel and answer
      [OutOfFuel] when it is used up. *)

From Stdlib Require Import ZArith List Ascii String Bool Lia.
From Stdlib Require Import Strings.Byte.
Import ListNotations.
Open Scope string_scope.
Open Scope list_scope.
Open Scope Z_scope.

(** ** Basic data *)

Definition error := string.

(** [time.Duration]: a count of nanoseconds. *)
Definition Duration := Z.
Definition Millisecond : Duration := 1000000.
Definition Second : Duration := 1000000000.

(** Two's complement wrap-around of 64-bit signed arithmetic. *)
Definition wrap64 (z : Z) : Z := (z + 2 ^ 63) mod 2 ^ 64 - 2 ^ 63.

(** Modelled from the spec: the type [stats.Metric] is declared outside the
    files at hand; a metric descriptor has a name, a help text and
    key/value tags. *)
Record Metric := {
  Name : string;
  Help : string;
  Tags : list (string * string)
}.

(** A value of type [interface{}] as the package builds them: a [float64]
    (carried by its 64 bits) or a [time.Duration]. *)
Inductive value :=
| Float64 (bits : Z)
| DurationValue (d : Duration).

(** The codec.  A method writes into the [io.Writer] it is given, which is
    always the worker's buffer: its effect is the bytes it appended, and
    its result the error it returned. *)
Record Protocol := {
  WriteSet : Metric -> Z -> list byte * option error;
  WriteAdd : Metric -> Z -> list byte * option error;
  WriteObserve : Metric -> Duration -> list byte * option error
}.

(** ** Results and events *)

Inductive result (A : Type) :=
| Ret (a : A)
| Panic (v : string)
| OutOfFuel.
Arguments Ret {A} a.
Arguments Panic {A} v.
Arguments OutOfFuel {A}.

Record job_ (W : Type) := {
  metric : Metric;
  value_ : value;
  write_ : W
}.
Arguments metric {W} j.
Arguments value_ {W} j.
Arguments write_ {W} j.

(** [type writer func(Protocol, io.Writer, stats.Metric, interface{}) error]:
    the protocol may be a nil interface; the result is what was appended to
    the writer and the error, or a panic. *)
Definition writer :=
  option Protocol -> Metric -> value -> result (list byte * option error).

Definition job := job_ writer.

Inductive event :=
| EvDial (network address : string)            (* config.Dial called *)
| EvFail (e : error)                           (* the failure callback called *)
| EvStderr (s : string)                        (* a line written to os.Stderr *)
| EvStack                                      (* printStack: the stack trace written to os.Stderr *)
| EvSleep (d : Duration)                       (* time.Sleep *)
| EvSetWriteDeadline (c : nat) (timeout : Duration)
| EvWrite (c : nat) (p : list byte)            (* conn.Write called with p *)
| EvConnClose (c : nat)                        (* conn.Close *)
| EvEnqueue (j : job)                          (* a job entered the queue *)
| EvRecv (j : job)                             (* the worker received a job *)
| EvRecvClosed                                 (* the worker saw the queue closed and empty *)
| EvTick                                       (* the worker received from timer.C *)
| EvChanClose                                  (* close(b.jobs) took effect *)
| EvTimerStop                                  (* timer.Stop *)
| EvDone.                                      (* join.Done *)

Definition is_dial (e : event) : bool :=
  match e with EvDial _ _ => true | _ => false end.
Definition is_fail (e : event) : bool :=
  match e with EvFail _ => true | _ => false end.
Definition is_deadline_of (c : nat) (e : event) : bool :=
  match e with EvSetWriteDeadline c' _ => Nat.eqb c c' | _ => false end.
Definition is_write_of (c : nat) (e : event) : bool :=
  match e with EvWrite c' _ => Nat.eqb c c' | _ => false end.

(** The events by which the worker takes something from its [select]. *)
Definition is_arrival (e : event) : bool :=
  match e with
  | EvRecv _ | EvRecvClosed | EvTick => true
  | _ => false
  end.

(** Number of earlier calls of one kind. *)
Definition calls (p : event -> bool) (t : list event) : nat :=
  List.length (filter p t).

(** The errors handed to the failure callback, oldest first. *)
Fixpoint failures (t : list event) : list error :=
  match t with
  | [] => []
  | EvFail e :: t' => e :: failures t'
  | _ :: t' => failures t'
  end.

(** ** Connections, callbacks and the configuration *)

(** A [net.Conn] that is not nil.  [conn_id] names it in the trace; the
    methods answer by the number of earlier calls on this connection. *)
Record Conn := {
  conn_id : nat;
  conn_SetWriteDeadline : nat -> option error;
  conn_Write : list byte -> nat -> option error
}.

(** What one call of a failure callback does: the lines it prints on
    [os.Stderr], and the panic it ends in, if any. *)
Record callback_outcome := {
  cb_stderr : list string;
  cb_panic : option string
}.

Definition FailFunc := error -> nat -> callback_outcome.
Definition DialFunc := string -> string -> nat -> option Conn * option error.

Record Config := {
  Protocol_ : option Protocol;
  Network : string;
  Address : string;
  BufferSize : Z;
  QueueSize : Z;
  RetryAfterMin : Duration;
  RetryAfterMax : Duration;
  FlushTimeout : Duration;
  WriteTimeout : Duration;
  Dial : option DialFunc;
  Fail : option FailFunc
}.

Definition newline : string := String (Ascii.ascii_of_nat 10) EmptyString.

(** [makeFailFunc(w)] with [w = os.Stderr]: prints the error and returns. *)
Definition makeFailFunc : FailFunc :=
  fun err _ =>
    {| cb_stderr := [String.append "stats: " (String.append err newline)];
       cb_panic := None |}.

(** Assignments to the fields of a [Config] value. *)
Definition set_BufferSize (v : Z) (c : Config) : Config :=
  {| Protocol_ := c.(Protocol_); Network := c.(Network); Address := c.(Address);
     BufferSize := v; QueueSize := c.(QueueSize);
     RetryAfterMin := c.(RetryAfterMin); RetryAfterMax := c.(RetryAfterMax);
     FlushTimeout := c.(FlushTimeout); WriteTimeout := c.(WriteTimeout);
     Dial := c.(Dial); Fail := c.(Fail) |}.
Definition set_QueueSize (v : Z) (c : Config) : Config :=
  {| Protocol_ := c.(Protocol_); Network := c.(Network); Address := c.(Address);
     BufferSize := c.(BufferSize); QueueSize := v;
     RetryAfterMin := c.(RetryAfterMin); RetryAfterMax := c.(RetryAfterMax);
     FlushTimeout := c.(FlushTimeout); WriteTimeout := c.(WriteTimeout);
     Dial := c.(Dial); Fail := c.(Fail) |}.
Definition set_RetryAfterMin (v : Duration) (c : Config) : Config :=
  {| Protocol_ := c.(Protocol_); Network := c.(Network); Address := c.(Address);
     BufferSize := c.(BufferSize); QueueSize := c.(QueueSize);
     RetryAfterMin := v; RetryAfterMax := c.(RetryAfterMax);
     FlushTimeout := c.(FlushTimeout); WriteTimeout := c.(WriteTimeout);
     Dial := c.(Dial); Fail := c.(Fail) |}.
Definition set_RetryAfterMax (v : Duration) (c : Config) : Config :=
  {| Protocol_ := c.(Protocol_); Network := c.(Network); Address := c.(Address);
     BufferSize := c.(BufferSize); QueueSize := c.(QueueSize);
     RetryAfterMin := c.(RetryAfterMin); RetryAfterMax := v;
     FlushTimeout := c.(FlushTimeout); WriteTimeout := c.(WriteTimeout);
     Dial := c.(Dial); Fail := c.(Fail) |}.
Definition set_FlushTimeout (v : Duration) (c : Config) : Config :=
  {| Protocol_ := c.(Protocol_); Network := c.(Network); Address := c.(Address);
     BufferSize := c.(BufferSize); QueueSize := c.(QueueSize);
     RetryAfterMin := c.(RetryAfterMin); RetryAfterMax := c.(RetryAfterMax);
     FlushTimeout := v; WriteTimeout := c.(WriteTimeout);
     Dial := c.(Dial); Fail := c.(Fail) |}.
Definition set_WriteTimeout (v : Duration) (c : Config) : Config :=
  {| Protocol_ := c.(Protocol_); Network := c.(Network); Address := c.(Address);
     BufferSize := c.(BufferSize); QueueSize := c.(QueueSize);
     RetryAfterMin := c.(RetryAfterMin); RetryAfterMax := c.(RetryAfterMax);
     FlushTimeout := c.(FlushTimeout); WriteTimeout := v;
     Dial := c.(Dial); Fail := c.(Fail) |}.
Definition set_Dial (v : option DialFunc) (c : Config) : Config :=
  {| Protocol_ := c.(Protocol_); Network := c.(Network); Address := c.(Address);
     BufferSize := c.(BufferSize); QueueSize := c.(QueueSize);
     RetryAfterMin := c.(RetryAfterMin); RetryAfterMax := c.(RetryAfterMax);
     FlushTimeout := c.(FlushTimeout); WriteTimeout := c.(WriteTimeout);
     Dial := v; Fail := c.(Fail) |}.
Definition set_Fail (v : option FailFunc) (c : Config) : Config :=
  {| Protocol_ := c.(Protocol_); Network := c.(Network); Address := c.(Address);
     BufferSize := c.(BufferSize); QueueSize := c.(QueueSize);
     RetryAfterMin := c.(RetryAfterMin); RetryAfterMax := c.(RetryAfterMax);
     FlushTimeout := c.(FlushTimeout); WriteTimeout := c.(WriteTimeout);
     Dial := c.(Dial); Fail := v |}.

Section Backend.

(** [net.Dial], the dialer of the Go library. *)
Variable net_Dial : DialFunc.

Definition setConfigDefaults (config : Config) : Config :=
  let config :=
    if config.(BufferSize) =? 0 then set_BufferSize 512 config else config in
  let config :=
    if config.(QueueSize) =? 0 then set_QueueSize 1000 config else config in
  let config :=
    match config.(Dial) with
    | None => set_Dial (Some net_Dial) config
    | Some _ => config
    end in
  let config :=
    match config.(Fail) with
    | None => set_Fail (Some makeFailFunc) config
    | Some _ => config
    end in
  let config :=
    if config.(RetryAfterMin) =? 0
    then set_RetryAfterMin (100 * Millisecond) config else config in
  let config :=
    if config.(RetryAfterMax) =? 0
    then set_RetryAfterMax (15 * Second) config else config in
  let config :=
    if config.(FlushTimeout) =? 0
    then set_FlushTimeout (5 * Second) config else config in
  let config :=
    if config.(WriteTimeout) =? 0
    then set_WriteTimeout (1 * Second) config else config in
  config.

(** ** The shared state and the monad of the program *)

(** [chan job]: the buffered jobs, the capacity given to [make], and
    whether [close] took effect. *)
Record chan := {
  items : list job;
  cap : Z;
  closed : bool
}.

(** What the goroutines can change: the queue [b.jobs], the worker's
    buffer [buf], the wait group counter [b.join], and the trace. *)
Record state := {
  jobs : chan;
  buf : list byte;
  join : Z;
  trace : list event
}.

Definition M (A : Type) : Type := state -> result A * state.

Definition ret {A} (a : A) : M A := fun s => (Ret a, s).

Definition bind {A B} (m : M A) (f : A -> M B) : M B :=
  fun s =>
    match m s with
    | (Ret a, s') => f a s'
    | (Panic v, s') => (Panic v, s')
    | (OutOfFuel, s') => (OutOfFuel, s')
    end.

Notation "x <- m ;; k" := (bind m (fun x => k))
  (at level 61, m at next level, right associativity).
Notation "m ;;; k" := (bind m (fun _ => k))
  (at level 61, right associativity).

Definition add_events (es : list event) (s : state) : state :=
  {| jobs := s.(jobs); buf := s.(buf); join := s.(join);
     trace := s.(trace) ++ es |}.

Definition emit (e : event) : M unit := fun s => (Ret tt, add_events [e] s).

Definition set_buf (b : list byte) (s : state) : state :=
  {| jobs := s.(jobs); buf := b; join := s.(join); trace := s.(trace) |}.

Definition set_jobs (c : chan) (s : state) : state :=
  {| jobs := c; buf := s.(buf); join := s.(join); trace := s.(trace) |}.

Definition set_join (n : Z) (s : state) : state :=
  {| jobs := s.(jobs); buf := s.(buf); join := n; trace := s.(trace) |}.

(** [defer d()] before the body [m], where [d] calls [recover()]: [d] runs
    when [m] is over and is given what [recover] returns, the value of the
    panic in flight if there is one; the panic stops there.  A panic of
    [d] itself goes to the caller. *)
Definition deferred (m : M unit) (d : option string -> M unit) : M unit :=
  fun s =>
    match m s with
    | (Ret _, s') => d None s'
    | (Panic v, s') => d (Some v) s'
    | (OutOfFuel, s') => (OutOfFuel, s')
    end.

Definition nil_dereference : string :=
  "runtime error: invalid memory address or nil pointer dereference".

(** ** Failure reporting *)

(** A call of a failure callback, which may be a nil func. *)
Definition call_Fail (fail : option FailFunc) (err : error) : M unit :=
  fun s =>
    match fail with
    | None => (Panic nil_dereference, s)
    | Some f =>
      let o := f err (calls is_fail s.(trace)) in
      let s' := add_events (EvFail err :: map EvStderr o.(cb_stderr)) s in
      match o.(cb_panic) with
      | Some v => (Panic v, s')
      | None => (Ret tt, s')
      end
    end.

(** [fmt.Fprintf(w, "panic: %v [recovered]\n", v)] *)
Definition panic_line (v : string) : string :=
  String.append "panic: " (String.append v (String.append " [recovered]" newline)).

Definition printPanic (v : string) : M unit := emit (EvStderr (panic_line v)).

Definition printStack : M unit := emit EvStack.

(** [handlePanic(os.Stderr)], given what its [recover()] returns. *)
Definition handlePanic (v : option string) : M unit :=
  match v with
  | Some v => printPanic v ;;; printStack
  | None => ret tt
  end.

Definition handleError (err : error) (config : Config) : M unit :=
  deferred (call_Fail config.(Fail) err) handlePanic.

(** ** The queue and the producers *)

Record backend := {
  fail : option FailFunc
}.

(** [select { case jobs <- job: default: }]: true when the job was sent.
    Sending on a closed channel panics. *)
Definition send_or_default (j : job) : M bool :=
  fun s =>
    if s.(jobs).(closed) then (Panic "send on closed channel", s)
    else if Z.of_nat (List.length s.(jobs).(items)) <? s.(jobs).(cap) then
      (Ret true,
       add_events [EvEnqueue j]
         (set_jobs {| items := s.(jobs).(items) ++ [j];
                      cap := s.(jobs).(cap);
                      closed := false |} s))
    else (Ret false, s).

Definition queue_closed_error (j : job) : error :=
  String.append "discarding "
    (String.append j.(metric).(Name) " because the metric queue was closed").

Definition queue_full_error (j : job) : error :=
  String.append "discarding "
    (String.append j.(metric).(Name) " because the metric queue is full").

Definition enqueue (j : job) (fail : option FailFunc) : M unit :=
  deferred
    (sent <- send_or_default j ;;
     if sent : bool then ret tt else call_Fail fail (queue_full_error j))
    (fun x =>
       match x with
       | Some _ => call_Fail fail (queue_closed_error j)
       | None => ret tt
       end).

(** The type assertions [v.(float64)] and [v.(time.Duration)]. *)
Definition assert_float64 (v : value) : result Z :=
  match v with
  | Float64 f => Ret f
  | DurationValue _ =>
    Panic "interface conversion: interface {} is time.Duration, not float64"
  end.

Definition assert_Duration (v : value) : result Duration :=
  match v with
  | DurationValue d => Ret d
  | Float64 _ =>
    Panic "interface conversion: interface {} is float64, not time.Duration"
  end.

(** A method call on a [Protocol] that may be the nil interface. *)
Definition call_Protocol {A} (p : option Protocol) (method : Protocol -> A)
  : result A :=
  match p with
  | Some p => Ret (method p)
  | None => Panic nil_dereference
  end.

Definition set : writer :=
  fun p m v =>
    match assert_float64 v with
    | Ret f => call_Protocol p (fun p => p.(WriteSet) m f)
    | Panic x => Panic x
    | OutOfFuel => OutOfFuel
    end.

Definition add : writer :=
  fun p m v =>
    match assert_float64 v with
    | Ret f => call_Protocol p (fun p => p.(WriteAdd) m f)
    | Panic x => Panic x
    | OutOfFuel => OutOfFuel
    end.

Definition observe : writer :=
  fun p m v =>
    match assert_Duration v with
    | Ret d => call_Protocol p (fun p => p.(WriteObserve) m d)
    | Panic x => Panic x
    | OutOfFuel => OutOfFuel
    end.

Definition backend_enqueue (b : backend) (m : Metric) (v : value) (w : writer)
  : M unit :=
  enqueue {| metric := m; value_ := v; write_ := w |} b.(fail).

Definition Set_ (b : backend) (m : Metric) (v : Z) : M unit :=
  backend_enqueue b m (Float64 v) set.

Definition Add (b : backend) (m : Metric) (v : Z) : M unit :=
  backend_enqueue b m (Float64 v) add.

Definition Observe (b : backend) (m : Metric) (v : Duration) : M unit :=
  backend_enqueue b m (DurationValue v) observe.

(** [close(b.jobs)]: closing a closed channel panics. *)
Definition close_jobs : M unit :=
  fun s =>
    if s.(jobs).(closed) then (Panic "close of closed channel", s)
    else (Ret tt,
          add_events [EvChanClose]
            (set_jobs {| items := s.(jobs).(items);
                         cap := s.(jobs).(cap);
                         closed := true |} s)).

(** [Close] up to its last deferred call: [close(b.jobs)] under
    [defer func() { recover() }()].  What is left is [b.join.Wait()],
    which returns once the counter is zero ([Close_may_return]). *)
Definition Close_signal : M unit :=
  deferred close_jobs (fun _ => ret tt).

Definition Close_may_return (s : state) : Prop := s.(join) = 0.

(** ** The connection manager *)

Definition call_Dial (config : Config) : M (option Conn * option error) :=
  fun s =>
    match config.(Dial) with
    | None => (Panic nil_dereference, s)
    | Some d =>
      (Ret (d config.(Network) config.(Address) (calls is_dial s.(trace))),
       add_events [EvDial config.(Network) config.(Address)] s)
    end.

Definition dial (config : Config) : M (option Conn) :=
  r <- call_Dial config ;;
  match snd r with
  | Some err => handleError err config
  | None => ret tt
  end ;;;
  ret (fst r).

Definition backoff (d : Duration) (max : Duration) : Duration :=
  let d := wrap64 (d + d) in
  if d >? max then max else d.

Definition sleep (d : Duration) (max : Duration) : M Duration :=
  emit (EvSleep d) ;;;
  ret (backoff d max).

(** The loop of [connect]; one unit of fuel per dial. *)
Fixpoint connect_loop (fuel : nat) (config : Config) (retryAfter : Duration)
  : M Conn :=
  match fuel with
  | O => fun s => (OutOfFuel, s)
  | S fuel' =>
    conn <- dial config ;;
    match conn with
    | None =>
      retryAfter <- sleep retryAfter config.(RetryAfterMax) ;;
      connect_loop fuel' config retryAfter
    | Some c => ret c
    end
  end.

Definition connect (fuel : nat) (config : Config) : M Conn :=
  connect_loop fuel config config.(RetryAfterMin).

(** ** The buffer and the flushes *)

(** [buf.Len()] *)
Definition buf_Len : M Z := fun s => (Ret (Z.of_nat (List.length s.(buf))), s).

(** [buf.Next(n)]: the next [n] unread bytes, or all of them when there are
    fewer, which are then no longer in the buffer; slicing panics when [n]
    is negative. *)
Definition buf_Next (n : Z) : M (list byte) :=
  fun s =>
    if n <? 0 then (Panic "runtime error: slice bounds out of range", s)
    else (Ret (firstn (Z.to_nat n) s.(buf)),
          set_buf (skipn (Z.to_nat n) s.(buf)) s).

Definition SetWriteDeadline (c : Conn) (timeout : Duration) : M (option error) :=
  fun s =>
    (Ret (c.(conn_SetWriteDeadline) (calls (is_deadline_of c.(conn_id)) s.(trace))),
     add_events [EvSetWriteDeadline c.(conn_id) timeout] s).

Definition conn_Write_ (c : Conn) (p : list byte) : M (option error) :=
  fun s =>
    (Ret (c.(conn_Write) p (calls (is_write_of c.(conn_id)) s.(trace))),
     add_events [EvWrite c.(conn_id) p] s).

Definition conn_Close (c : Conn) : M unit := emit (EvConnClose c.(conn_id)).

Definition flushN (conn : option Conn) (config : Config) (n : Z)
  : M (option Conn) :=
  match conn with
  | Some c =>
    err <- SetWriteDeadline c config.(WriteTimeout) ;;
    err <- match err with
           | None => p <- buf_Next n ;; conn_Write_ c p
           | Some e => ret (Some e)
           end ;;
    match err with
    | Some e =>
      conn_Close c ;;;
      handleError e config ;;;
      ret None
    | None => ret (Some c)
    end
  | None => ret None
  end.

Definition flush (conn : option Conn) (config : Config) : M (option Conn) :=
  n <- buf_Len ;;
  flushN conn config n.

(** [job.write(config.Protocol, buf, job.metric, job.value)]: the bytes the
    codec wrote are appended to the buffer. *)
Definition job_write (j : job) (config : Config) : M (option error) :=
  fun s =>
    match j.(write_) config.(Protocol_) j.(metric) j.(value_) with
    | Ret (p, err) => (Ret err, set_buf (s.(buf) ++ p) s)
    | Panic v => (Panic v, s)
    | OutOfFuel => (OutOfFuel, s)
    end.

Definition write (conn : option Conn) (j : job) (config : Config)
  : M (option Conn) :=
  n1 <- buf_Len ;;
  err <- job_write j config ;;
  match err with
  | Some e =>
    handleError e config ;;;
    ret conn
  | None =>
    n2 <- buf_Len ;;
    if n2 >=? config.(BufferSize) then
      let n1 := if n1 =? 0 then n2 else n1 in
      flushN conn config n1
    else ret conn
  end.

(** ** The worker loop *)

(** [if conn == nil { conn = connect(config) }], the head of the loop of
    [run]. *)
Definition ensure_conn (fuel : nat) (config : Config) (conn : option Conn)
  : M (option Conn) :=
  match conn with
  | None => c <- connect fuel config ;; ret (Some c)
  | Some c => ret (Some c)
  end.

(** What the [select] of [run] received. *)
Inductive selected :=
| SelJob (j : job)       (* [job, open := <-jobs] with [open] true *)
| SelClosed              (* [open] false *)
| SelTick.               (* [<-timer.C] *)

(** Receiving from [jobs]: the oldest job, or the closed signal once the
    channel is closed and empty; nothing while it is open and empty. *)
Definition recv_jobs (s : state) : option (selected * state) :=
  match s.(jobs).(items) with
  | j :: rest =>
    Some (SelJob j,
          add_events [EvRecv j]
            (set_jobs {| items := rest; cap := s.(jobs).(cap);
                         closed := s.(jobs).(closed) |} s))
  | [] =>
    if s.(jobs).(closed) then Some (SelClosed, add_events [EvRecvClosed] s)
    else None
  end.

Definition recv_timer (s : state) : selected * state :=
  (SelTick, add_events [EvTick] s).

(** The body of the case that fired; the boolean tells that [run] returns. *)
Definition handle (sel : selected) (conn : option Conn) (config : Config)
  : M (option Conn * bool) :=
  match sel with
  | SelClosed => conn <- flush conn config ;; ret (conn, true)
  | SelJob j => conn <- write conn j config ;; ret (conn, false)
  | SelTick => conn <- flush conn config ;; ret (conn, false)
  end.

(** [join.Done()] *)
Definition join_Done : M unit :=
  fun s =>
    if s.(join) - 1 <? 0 then (Panic "sync: negative WaitGroup counter", s)
    else (Ret tt, add_events [EvDone] (set_join (s.(join) - 1) s)).

(** The deferred calls of [run], the last one registered first:
    [timer.Stop()], closing the connection if there is one, [join.Done()]. *)
Definition run_exit (conn : option Conn) : M unit :=
  emit EvTimerStop ;;;
  match conn with
  | Some c => conn_Close c
  | None => ret tt
  end ;;;
  join_Done.

(** [buf.Grow(n)]: room for [n] more bytes, the content stays; a negative
    [n] panics. *)
Definition buf_Grow (n : Z) : M unit :=
  fun s =>
    if n <? 0 then (Panic "bytes.Buffer.Grow: negative count", s)
    else (Ret tt, s).

(** The [select] of [run] for a worker that no producer disturbs: the
    timer's case when [tick] says so for this arrival, and also when the
    queue is open and empty, since then only the timer can wake the worker
    up; the queue's case otherwise. *)
Definition select (tick : nat -> bool) : M selected :=
  fun s =>
    if tick (calls is_arrival s.(trace)) then (Ret SelTick, snd (recv_timer s))
    else
      match recv_jobs s with
      | Some (sel, s') => (Ret sel, s')
      | None => (Ret SelTick, snd (recv_timer s))
      end.

(** The loop of [run]; one unit of fuel per round, and as much again for
    the attempts of each [connect].  The result is [conn] as it stands
    when [run] returns. *)
Fixpoint run_loop (fuel : nat) (tick : nat -> bool) (config : Config)
         (conn : option Conn) : M (option Conn) :=
  match fuel with
  | O => fun s => (OutOfFuel, s)
  | S fuel' =>
    conn <- ensure_conn (S fuel') config conn ;;
    sel <- select tick ;;
    r <- handle sel conn config ;;
    if snd r : bool then ret (fst r) else run_loop fuel' tick config (fst r)
  end.

(** [run], started on a state whose buffer is the fresh [bytes.Buffer].
    When the loop panics the goroutine takes the process down; the
    deferred calls are run for a return only. *)
Definition run (fuel : nat) (tick : nat -> bool) (config : Config) : M unit :=
  buf_Grow config.(BufferSize) ;;;
  conn <- run_loop fuel tick config None ;;
  run_exit conn.

(** Where the worker goroutine stands in [run]. *)
Inductive position :=
| AtLoopTop      (* before [if conn == nil] *)
| AtSelect       (* before [select] *)
| Exited.        (* [run] has returned *)

(** The engine: the shared state, and the worker's variable [conn] and
    position. *)
Record engine := {
  world : state;
  conn_ : option Conn;
  pos : position
}.

(** A call of the producer API, up to the point where it may block. *)
Inductive api_call :=
| CallSet (m : Metric) (v : Z)
| CallAdd (m : Metric) (v : Z)
| CallObserve (m : Metric) (v : Duration)
| CallClose.

Definition api (b : backend) (c : api_call) : M unit :=
  match c with
  | CallSet m v => Set_ b m v
  | CallAdd m v => Add b m v
  | CallObserve m v => Observe b m v
  | CallClose => Close_signal
  end.

(** One step of the engine.  The producers' calls are taken one at a time
    (a call touches the shared state only through one operation on the
    channel).  The worker goes round the loop of [run], which it has
    entered with its fresh buffer: it connects if it has no connection,
    then waits in [select] until the queue or the timer has something for
    it, and handles that; when it leaves the loop its deferred calls are
    run.  A worker that panics takes no further step. *)
Inductive step (config : Config) (b : backend) : engine -> engine -> Prop :=
| step_api : forall e c r s',
    api b c e.(world) = (r, s') ->
    step config b e {| world := s'; conn_ := e.(conn_); pos := e.(pos) |}
| step_connect : forall e fuel conn' s',
    e.(pos) = AtLoopTop ->
    ensure_conn fuel config e.(conn_) e.(world) = (Ret conn', s') ->
    step config b e {| world := s'; conn_ := conn'; pos := AtSelect |}
| step_jobs : forall e sel s1 conn' s',
    e.(pos) = AtSelect ->
    recv_jobs e.(world) = Some (sel, s1) ->
    handle sel e.(conn_) config s1 = (Ret (conn', false), s') ->
    step config b e {| world := s'; conn_ := conn'; pos := AtLoopTop |}
| step_timer : forall e conn' s',
    e.(pos) = AtSelect ->
    handle SelTick e.(conn_) config (snd (recv_timer e.(world)))
      = (Ret (conn', false), s') ->
    step config b e {| world := s'; conn_ := conn'; pos := AtLoopTop |}
| step_return : forall e sel s1 conn' s2 s',
    e.(pos) = AtSelect ->
    recv_jobs e.(world) = Some (sel, s1) ->
    handle sel e.(conn_) config s1 = (Ret (conn', true), s2) ->
    run_exit conn' s2 = (Ret tt, s') ->
    step config b e {| world := s'; conn_ := conn'; pos := Exited |}.

Inductive steps (config : Config) (b : backend) : engine -> engine -> Prop :=
| steps_refl : forall e, steps config b e e
| steps_step : forall e1 e2 e3,
    steps config b e1 e2 -> step config b e2 e3 -> steps config b e1 e3.

(** [NewBackendWith]: the configuration with its defaults, the backend,
    and the engine as it starts: an empty queue of the configured
    capacity, the wait group at one, the worker at the head of the loop of
    [run] with no connection and an empty buffer.  [make] panics on a
    negative size.  (With a negative [BufferSize] the worker itself would
    panic in [buf.Grow] before its loop, see [run]; the steps are those of
    a worker that got into the loop.) *)
Definition NewBackendWith (config : Config) : result (Config * backend * engine) :=
  let config := setConfigDefaults config in
  if config.(QueueSize) <? 0 then Panic "makechan: size out of range"
  else
    Ret (config,
         {| fail := config.(Fail) |},
         {| world := {| jobs := {| items := []; cap := config.(QueueSize);
                                   closed := false |};
                        buf := []; join := 1; trace := [] |};
            conn_ := None;
            pos := AtLoopTop |}).

Definition reachable (config0 : Config) (e : engine) : Prop :=
  exists config b e0,
    NewBackendWith config0 = Ret (config, b, e0) /\ steps config b e0 e.

End Backend.

(** ** Vocabulary of the statements *)

(** What one report through [handleError] appends to the trace when the
    callback is [f] and has been called [n] times before: the call, what
    the callback printed, and, if it panicked, the diagnostic of
    [handlePanic]. *)
Definition report_events (f : FailFunc) (err : error) (n : nat) : list event :=
  EvFail err :: map EvStderr (f err n).(cb_stderr) ++
  match (f err n).(cb_panic) with
  | Some v => [EvStderr (panic_line v); EvStack]
  | None => []
  end.

(** The same for a configuration, whose callback may be nil: calling it
    is then the panic that [handlePanic] prints. *)
Definition reported (config : Config) (err : error) (n : nat) : list event :=
  match config.(Fail) with
  | Some f => report_events f err n
  | None => [EvStderr (panic_line nil_dereference); EvStack]
  end.

(** The defaults as the documentation words them, field by field: a zero
    field takes its default, any other value stays. *)
Definition defaults_closed_form (net_Dial : DialFunc) (config : Config) : Config :=
  {| Protocol_ := config.(Protocol_);
     Network := config.(Network);
     Address := config.(Address);
     BufferSize := if config.(BufferSize) =? 0 then 512 else config.(BufferSize);
     QueueSize := if config.(QueueSize) =? 0 then 1000 else config.(QueueSize);
     RetryAfterMin :=
       if config.(RetryAfterMin) =? 0 then 100000000 else config.(RetryAfterMin);
     RetryAfterMax :=
       if config.(RetryAfterMax) =? 0 then 15000000000 else config.(RetryAfterMax);
     FlushTimeout :=
       if config.(FlushTimeout) =? 0 then 5000000000 else config.(FlushTimeout);
     WriteTimeout :=
       if config.(WriteTimeout) =? 0 then 1000000000 else config.(WriteTimeout);
     Dial := Some (match config.(Dial) with Some d => d | None => net_Dial end);
     Fail := Some (match config.(Fail) with Some f => f | None => makeFailFunc end) |}.

(** The delay before the retry that follows the failed attempt number
    [i + 1] of one [connect], as the documentation words it: the minimum
    doubled [i] times, capped by the maximum. *)
Definition doubled_delay (config : Config) (i : nat) : Duration :=
  Z.min (config.(RetryAfterMin) * 2 ^ Z.of_nat i) config.(RetryAfterMax).

(** The delay the code sleeps there: the minimum, put [i] times through
    [backoff]. *)
Definition nth_delay (config : Config) (i : nat) : Duration :=
  Nat.iter i (fun d => backoff d config.(RetryAfterMax)) config.(RetryAfterMin).

(** What one failed attempt of [connect] leaves in the trace: the dial,
    the report of its error, the sleep. *)
Definition failed_round (config : Config) (f : FailFunc) (err : error)
           (nf : nat) (d : Duration) : list event :=
  EvDial config.(Network) config.(Address) :: report_events f err nf ++ [EvSleep d].

(** The jobs that entered the queue, and those the worker received, in
    the order of the trace. *)
Fixpoint enqueued (t : list event) : list job :=
  match t with
  | [] => []
  | EvEnqueue j :: t' => j :: enqueued t'
  | _ :: t' => enqueued t'
  end.

Fixpoint received (t : list event) : list job :=
  match t with
  | [] => []
  | EvRecv j :: t' => j :: received t'
  | _ :: t' => received t'
  end.

(** The events that tell of the queue: an arrival, or a job entering. *)
Definition is_queue_event (e : event) : bool :=
  match e with
  | EvEnqueue _ | EvRecv _ | EvRecvClosed | EvTick => true
  | _ => false
  end.

(** A job whose value has the dynamic type its writer asserts. *)
Definition typed (j : job) : Prop :=
  (exists v, j.(value_) = Float64 v /\ (j.(write_) = set \/ j.(write_) = add)) \/
  (exists d, j.(value_) = DurationValue d /\ j.(write_) = observe).

(** [s'] differs from [s] by things that are no business of the queue: the
    channel and the wait group are the same, and no job entered or left
    the queue in between. *)
Definition frame (s s' : state) : Prop :=
  s'.(jobs) = s.(jobs) /\ s'.(join) = s.(join) /\
  enqueued s'.(trace) = enqueued s.(trace) /\
  received s'.(trace) = received s.(trace) /\
  calls is_arrival s'.(trace) = calls is_arrival s.(trace).

(** An action that stays within [frame], however it ends. *)
Definition quiet {A} (m : M A) : Prop := forall s, frame s (snd (m s)).

(** What holds of every engine that the engine of [NewBackendWith] can
    step to: the queued jobs are well typed; the jobs that entered the
    queue are those the worker received followed by those still queued;
    the worker waits in [select] only with a connection; the wait group
    is at one while the worker runs and at zero once it has returned,
    which it does only on a closed and empty queue. *)
Definition invariant (e : engine) : Prop :=
  Forall typed e.(world).(jobs).(items) /\
  enqueued e.(world).(trace) =
    received e.(world).(trace) ++ e.(world).(jobs).(items) /\
  (e.(pos) = AtSelect -> e.(conn_) <> None) /\
  (e.(pos) = Exited ->
   e.(world).(join) = 0 /\ e.(world).(jobs).(closed) = true /\
   e.(world).(jobs).(items) = []) /\
  (e.(pos) <> Exited -> e.(world).(join) = 1).

(** The bytes handed to [conn.Write], in the order of the trace, whatever
    the connection and whatever became of the write. *)
Fixpoint written (t : list event) : list byte :=
  match t with
  | [] => []
  | EvWrite _ p :: t' => p ++ written t'
  | _ :: t' => written t'
  end.

(** The delays slept, in the order of the trace. *)
Fixpoint sleeps (t : list event) : list Duration :=
  match t with
  | [] => []
  | EvSleep d :: t' => d :: sleeps t'
  | _ :: t' => sleeps t'
  end.

(** The bytes the codec of [config] writes for a job (none when the
    writer of the job panics). *)
Definition codec_bytes (config : Config) (j : job) : list byte :=
  match j.(write_) config.(Protocol_) j.(metric) j.(value_) with
  | Ret (p, _) => p
  | _ => []
  end.

(** The events a call of the producer API can add to the trace. *)
Definition is_producer_event (e : event) : bool :=
  match e with
  | EvFail _ | EvStderr _ | EvEnqueue _ | EvChanClose => true
  | _ => false
  end.

(** An action that neither makes nor loses a byte: what has been handed to
    connections followed by what is in the buffer is the same before and
    after, however the action ends. *)
Definition conserving {A} (m : M A) : Prop :=
  forall s,
    written (snd (m s)).(trace) ++ (snd (m s)).(buf)
    = written s.(trace) ++ s.(buf).

(** Events of a flush: a deadline set or bytes handed to a connection. *)
Definition is_flush_event (e : event) : bool :=
  match e with
  | EvSetWriteDeadline _ _ | EvWrite _ _ => true
  | _ => false
  end.

(** ** Sample data for the concrete runs *)

Definition sample_metric : Metric :=
  {| Name := "requests"; Help := ""; Tags := [] |}.

(** A codec that writes one byte per metric kind and rejects the metric
    named [bad] after writing one byte. *)
Definition sample_protocol : Protocol :=
  {| WriteSet := fun m _ =>
       if String.eqb m.(Name) "bad" then (["x"%byte], Some "bad metric")
       else (["s"%byte], None);
     WriteAdd := fun _ _ => (["a"%byte; "a"%byte], None);
     WriteObserve := fun _ _ => (["o"%byte; "o"%byte; "o"%byte], None) |}.

(** A connection that accepts everything, one whose deadline cannot be
    set, and one whose writes fail. *)
Definition good_conn : Conn :=
  {| conn_id := 1;
     conn_SetWriteDeadline := fun _ => None;
     conn_Write := fun _ _ => None |}.

Definition no_deadline_conn : Conn :=
  {| conn_id := 2;
     conn_SetWriteDeadline := fun _ => Some "deadline not supported";
     conn_Write := fun _ _ => None |}.

Definition broken_conn : Conn :=
  {| conn_id := 3;
     conn_SetWriteDeadline := fun _ => None;
     conn_Write := fun _ _ => Some "broken pipe" |}.

(** A dialer that succeeds at once, and one that fails three times
    first. *)
Definition sample_dial : DialFunc :=
  fun _ _ _ => (Some good_conn, None).

Definition flaky_dial : DialFunc :=
  fun _ _ n =>
    if (n <? 3)%nat then (None, Some "connection refused")
    else (Some good_conn, None).

(** A callback that only takes note, and one that panics. *)
Definition quiet_fail : FailFunc :=
  fun _ _ => {| cb_stderr := []; cb_panic := None |}.

Definition panicking_fail : FailFunc :=
  fun _ _ => {| cb_stderr := []; cb_panic := Some "boom" |}.

Definition sample_config : Config :=
  {| Protocol_ := Some sample_protocol;
     Network := "tcp"; Address := "localhost:8125";
     BufferSize := 4; QueueSize := 2;
     RetryAfterMin := 100 * Millisecond; RetryAfterMax := 250 * Millisecond;
     FlushTimeout := 5 * Second; WriteTimeout := 1 * Second;
     Dial := Some sample_dial; Fail := Some quiet_fail |}.

Definition empty_state : state :=
  {| jobs := {| items := []; cap := 2; closed := false |};
     buf := []; join := 1; trace := [] |}.

(** Three bytes wait in the buffer. *)
Definition buffered_state : state :=
  set_buf ["a"%byte; "b"%byte; "c"%byte] empty_state.

(** The same configuration with the flaky dialer, with the panicking
    callback, with a minimum delay above the maximum, and with delays
    whose double does not fit 64 bits. *)
Definition flaky_config : Config := set_Dial (Some flaky_dial) sample_config.

Definition panicking_config : Config :=
  set_Fail (Some panicking_fail) sample_config.

Definition inverted_config : Config :=
  set_RetryAfterMin (20 * Second)
    (set_RetryAfterMax (15 * Second) flaky_config).

Definition huge_config : Config :=
  set_RetryAfterMin (2 ^ 62) (set_RetryAfterMax (2 ^ 62) flaky_config).

Definition set_job : job :=
  {| metric := sample_metric; value_ := Float64 1; write_ := set |}.

Definition add_job : job :=
  {| metric := sample_metric; value_ := Float64 1; write_ := add |}.

Definition bad_job : job :=
  {| metric := {| Name := "bad"; Help := ""; Tags := [] |};
     value_ := Float64 1; write_ := set |}.

(** The backend and the engine that [NewBackendWith] makes of
    [sample_config], and the engine at the end of a short life: one [Set],
    then [Close], while the worker connects, receives the job, finds the
    queue closed and returns. *)
Definition sample_backend : backend := {| fail := Some quiet_fail |}.

Definition sample_start : engine :=
  {| world := empty_state; conn_ := None; pos := AtLoopTop |}.

Definition sample_end : engine :=
  {| world :=
       {| jobs := {| items := []; cap := 2; closed := true |};
          buf := [];
          join := 0;
          trace := [EvEnqueue set_job; EvChanClose;
                    EvDial "tcp" "localhost:8125";
                    EvRecv set_job;
                    EvRecvClosed;
                    EvSetWriteDeadline 1 (1 * Second);
                    EvWrite 1 ["s"%byte];
                    EvTimerStop; EvConnClose 1; EvDone] |};
     conn_ := Some good_conn;
     pos := Exited |}.

(** The sample configuration without a callback; a queue of one that is
    full; the queue of the sample engine once [set_job] is queued and the
    queue closed; and the sample engine while its worker waits on that
    queue, closed and drained. *)
Definition silent_config : Config := set_Fail None sample_config.

Definition full_state : state :=
  {| jobs := {| items := [set_job]; cap := 1; closed := false |};
     buf := []; join := 1; trace := [] |}.


Definition sample_waiting : engine :=
  {| world :=
       {| jobs := {| items := []; cap := 2; closed := true |};
          buf := ["s"%byte];
          join := 1;
          trace := [EvEnqueue set_job; EvChanClose;
                    EvDial "tcp" "localhost:8125";
                    EvRecv set_job] |};
     conn_ := Some good_conn;
     pos := AtSelect |}.

(** ** Scanning text: the helpers of package [linux] ([parse.go])

    A Go string is a sequence of bytes.  [strings.TrimSpace] belongs to the
    Go library and works on the runes of the string; the helpers are
    modelled over any function in its place.  [skipSpaces] and
    [forEachColumn], which decode runes themselves, are left out. *)

Definition newline_byte : byte := x0a.
Definition colon_byte : byte := x3a.

(** [strings.IndexByte(s, c)]: the index of the first [c] in [s], or -1. *)
Fixpoint IndexByte (s : list byte) (c : byte) : Z :=
  match s with
  | [] => -1
  | x :: s' =>
    if Byte.eqb x c then 0
    else
      let i := IndexByte s' c in
      if i <? 0 then -1 else i + 1
  end.

(** The slices [s[:i]] and [s[i:]], for [0 <= i <= len(s)]. *)
Definition slice_to (s : list byte) (i : Z) : list byte := firstn (Z.to_nat i) s.
Definition slice_from (s : list byte) (i : Z) : list byte := skipn (Z.to_nat i) s.

Section Parse.

Variable TrimSpace : list byte -> list byte.

(** The loop of [forEachLine]; the callback acts on a state of the
    caller's.  Each round takes at least one byte off a text that is not
    empty, so that one unit of fuel per byte is enough. *)
Fixpoint forEachLine_loop {St : Type} (fuel : nat) (text : list byte)
         (call : list byte -> St -> St) (s : St) : St :=
  match fuel with
  | O => s
  | S fuel' =>
    if Nat.eqb (List.length text) 0 then s
    else
      let i := IndexByte text newline_byte in
      let line_text :=
        if i >=? 0 then (slice_to text i, slice_from text (i + 1))
        else (text, []) in
      let line := TrimSpace (fst line_text) in
      let s := if Nat.eqb (List.length line) 0 then s else call line s in
      forEachLine_loop fuel' (snd line_text) call s
  end.

Definition forEachLine {St : Type} (text : list byte)
           (call : list byte -> St -> St) (s : St) : St :=
  forEachLine_loop (List.length text) text call s.

(** The closure of [forEachLineExceptFirst] carries the variable [first]
    of its maker. *)
Definition forEachLineExceptFirst {St : Type} (text : list byte)
           (call : list byte -> St -> St) (s : St) : St :=
  snd (forEachLine text
         (fun line (st : bool * St) =>
            if fst st then (false, snd st) else (fst st, call line (snd st)))
         (true, s)).

Definition splitProperty (text : list byte) : list byte * list byte :=
  let i := IndexByte text colon_byte in
  let key_val :=
    if i >=? 0 then (slice_to text i, slice_from text (i + 1))
    else ([], text) in
  (TrimSpace (fst key_val), TrimSpace (snd key_val)).

Definition forEachProperty {St : Type} (text : list byte)
           (call : list byte -> list byte -> St -> St) (s : St) : St :=
  forEachLine text
    (fun line => call (fst (splitProperty line)) (snd (splitProperty line))) s.

Definition skipLine (text : list byte) : list byte :=
  let i := IndexByte text newline_byte in
  if i >=? 0 then slice_from text (i + 1) else [].

(** The pieces of a text between its newlines, a final newline ending the
    last piece; and the lines of [forEachLine]: the trimmed pieces that
    are not empty. *)
Fixpoint segments (text : list byte) : list (list byte) :=
  match text with
  | [] => []
  | c :: rest =>
    if Byte.eqb c newline_byte then [] :: segments rest
    else
      match segments rest with
      | [] => [[c]]
      | seg :: segs => (c :: seg) :: segs
      end
  end.

Definition nonempty (l : list byte) : bool := negb (Nat.eqb (List.length l) 0).

Definition lines (text : list byte) : list (list byte) :=
  filter nonempty (map TrimSpace (segments text)).

(** Every piece followed by a newline. *)
Definition unlines (segs : list (list byte)) : list byte :=
  flat_map (fun seg => seg ++ [newline_byte]) segs.

End Parse.

(** A stand-in for [strings.TrimSpace] that knows the blank only. *)
Fixpoint trim_left_blank (l : list byte) : list byte :=
  match l with
  | c :: l' => if Byte.eqb c x20 then trim_left_blank l' else l
  | [] => []
  end.

Definition trim_blank (l : list byte) : list byte :=
  rev (trim_left_blank (rev (trim_left_blank l))).

(** The text [" head\n\nMemTotal: 12:30 kB\n"]. *)
Definition sample_text : list byte :=
  [x20; "h"; "e"; "a"; "d"; x0a; x0a;
   "M"; "e"; "m"; ":"; x20; "1"; "2"; ":"; "3"; "0"; x0a]%byte.

(** * Properties *)

(** ** Defaults of the configuration *)

(** The chain of conditional assignments computes the field-wise form. *)
Lemma setConfigDefaults_closed_form (net_Dial : DialFunc) (config : Config) :
  setConfigDefaults net_Dial config = defaults_closed_form net_Dial config.
Proof.
  destruct config as [p nw ad bs qs rmin rmax ft wt d f].
  destruct bs as [|?|?], qs as [|?|?], rmin as [|?|?], rmax as [|?|?],
    ft as [|?|?], wt as [|?|?], d, f; reflexivity.
Qed.

(** C9: [setConfigDefaults] replaces each of the six numeric fields by its
    default when it is zero (BufferSize 512, QueueSize 1000, RetryAfterMin
    100ms, RetryAfterMax 15s, FlushTimeout 5s, WriteTimeout 1s, durations in
    nanoseconds) and leaves it as it is otherwise; a nil dialer and a nil
    callback get their defaults too, and the protocol, the network and the
    address are never touched. *)
Theorem setConfigDefaults_spec (net_Dial : DialFunc) (config : Config) :
  let c := setConfigDefaults net_Dial config in
  c.(BufferSize) = (if config.(BufferSize) =? 0 then 512 else config.(BufferSize)) /\
  c.(QueueSize) = (if config.(QueueSize) =? 0 then 1000 else config.(QueueSize)) /\
  c.(RetryAfterMin) =
    (if config.(RetryAfterMin) =? 0 then 100000000 else config.(RetryAfterMin)) /\
  c.(RetryAfterMax) =
    (if config.(RetryAfterMax) =? 0 then 15000000000 else config.(RetryAfterMax)) /\
  c.(FlushTimeout) =
    (if config.(FlushTimeout) =? 0 then 5000000000 else config.(FlushTimeout)) /\
  c.(WriteTimeout) =
    (if config.(WriteTimeout) =? 0 then 1000000000 else config.(WriteTimeout)) /\
  c.(Dial) = Some (match config.(Dial) with Some d => d | None => net_Dial end) /\
  c.(Fail) = Some (match config.(Fail) with Some f => f | None => makeFailFunc end) /\
  c.(Protocol_) = config.(Protocol_) /\
  c.(Network) = config.(Network) /\
  c.(Address) = config.(Address).
Proof.
  rewrite setConfigDefaults_closed_form. cbv zeta.
  unfold defaults_closed_form; cbn [BufferSize QueueSize RetryAfterMin
    RetryAfterMax FlushTimeout WriteTimeout Dial Fail Protocol_ Network Address].
  repeat split; reflexivity.
Qed.

(** ** The monad and the trace *)

Lemma add_events_app (es1 es2 : list event) (s : state) :
  add_events es2 (add_events es1 s) = add_events (es1 ++ es2) s.
Proof.
  unfold add_events; cbn. now rewrite <- app_assoc.
Qed.

Lemma add_events_nil (s : state) : add_events [] s = s.
Proof.
  destruct s; unfold add_events; cbn. now rewrite app_nil_r.
Qed.

Lemma add_events_set_buf (es : list event) (b : list byte) (s : state) :
  add_events es (set_buf b s) = set_buf b (add_events es s).
Proof. reflexivity. Qed.

Lemma calls_app (p : event -> bool) (t1 t2 : list event) :
  calls p (t1 ++ t2) = (calls p t1 + calls p t2)%nat.
Proof.
  unfold calls. now rewrite filter_app, length_app.
Qed.

Lemma failures_app (t1 t2 : list event) :
  failures (t1 ++ t2) = failures t1 ++ failures t2.
Proof.
  induction t1 as [|e t1 IH]; [reflexivity|].
  destruct e; cbn; now rewrite ?IH.
Qed.

Lemma failures_stderr (l : list string) : failures (map EvStderr l) = [].
Proof. induction l; [reflexivity | exact IHl]. Qed.

Lemma failures_report_events (f : FailFunc) (err : error) (n : nat) :
  failures (report_events f err n) = [err].
Proof.
  unfold report_events; cbn. rewrite failures_app, failures_stderr.
  now destruct (cb_panic (f err n)).
Qed.

Lemma report_events_no_flush (f : FailFunc) (err : error) (n : nat) :
  forallb (fun e => negb (is_flush_event e)) (report_events f err n) = true.
Proof.
  unfold report_events; cbn. rewrite forallb_app.
  apply andb_true_iff; split.
  - induction (cb_stderr (f err n)); [reflexivity | exact IHl].
  - now destruct (cb_panic (f err n)).
Qed.

(** [handleError] in closed form: it always returns, and appends
    [reported] to the trace. *)
Lemma handleError_eq (err : error) (config : Config) (s : state) :
  handleError err config s =
  (Ret tt, add_events (reported config err (calls is_fail s.(trace))) s).
Proof.
  unfold handleError, deferred, call_Fail, reported, report_events.
  destruct (Fail config) as [f|].
  - destruct (cb_panic (f err _)) as [v|].
    + unfold handlePanic, bind, printPanic, printStack, emit.
      rewrite !add_events_app. reflexivity.
    + unfold handlePanic, ret. now rewrite app_nil_r.
  - unfold handlePanic, bind, printPanic, printStack, emit.
    now rewrite !add_events_app.
Qed.

Lemma handleError_some (err : error) (config : Config) (f : FailFunc) (s : state) :
  config.(Fail) = Some f ->
  handleError err config s =
  (Ret tt, add_events (report_events f err (calls is_fail s.(trace))) s).
Proof.
  intros Hf. rewrite handleError_eq. unfold reported. now rewrite Hf.
Qed.

(** Events that are not calls of the callback do not move its counter. *)
Lemma calls_fail_skip (t es : list event) :
  forallb (fun e => negb (is_fail e)) es = true ->
  calls is_fail (t ++ es) = calls is_fail t.
Proof.
  intros H. rewrite calls_app. unfold calls at 2.
  replace (filter is_fail es) with (@nil event); [cbn; lia|].
  induction es as [|e es IH]; [reflexivity|].
  cbn in H. apply andb_true_iff in H as [He Hes].
  cbn. destruct (is_fail e); [discriminate|]. now apply IH.
Qed.

(** ** Flushing *)

Lemma reported_some (config : Config) (f : FailFunc) (err : error) (n : nat) :
  config.(Fail) = Some f -> reported config err n = report_events f err n.
Proof. intros Hf. unfold reported. now rewrite Hf. Qed.

Lemma reported_no_flush (config : Config) (err : error) (n : nat) :
  forallb (fun e => negb (is_flush_event e)) (reported config err n) = true.
Proof.
  unfold reported. destruct (Fail config); [apply report_events_no_flush | reflexivity].
Qed.

(** [flushN] on an open connection, in closed form. *)
Lemma flushN_some_eq (c : Conn) (config : Config) (n : Z) (s : state) :
  0 <= n ->
  flushN (Some c) config n s =
  let id := c.(conn_id) in
  let p := firstn (Z.to_nat n) s.(buf) in
  let rest := skipn (Z.to_nat n) s.(buf) in
  let nf := calls is_fail s.(trace) in
  match c.(conn_SetWriteDeadline) (calls (is_deadline_of id) s.(trace)) with
  | Some e =>
    (Ret None,
     add_events (EvSetWriteDeadline id config.(WriteTimeout)
                 :: EvConnClose id :: reported config e nf) s)
  | None =>
    match c.(conn_Write) p (calls (is_write_of id) s.(trace)) with
    | Some e =>
      (Ret None,
       add_events (EvSetWriteDeadline id config.(WriteTimeout)
                   :: EvWrite id p :: EvConnClose id :: reported config e nf)
         (set_buf rest s))
    | None =>
      (Ret (Some c),
       add_events [EvSetWriteDeadline id config.(WriteTimeout); EvWrite id p]
         (set_buf rest s))
    end
  end.
Proof.
  intros Hn. cbv zeta.
  assert (Hw : calls (is_write_of c.(conn_id))
                 (s.(trace) ++ [EvSetWriteDeadline c.(conn_id) config.(WriteTimeout)])
               = calls (is_write_of c.(conn_id)) s.(trace)).
  { rewrite calls_app. cbn. lia. }
  assert (Hl : (n <? 0) = false) by (apply Z.ltb_ge; lia).
  unfold flushN, bind, SetWriteDeadline.
  destruct (conn_SetWriteDeadline c _) as [e|].
  - unfold ret, conn_Close, emit.
    rewrite add_events_app, handleError_eq, add_events_app.
    cbn [trace add_events]. rewrite calls_fail_skip by reflexivity. reflexivity.
  - unfold buf_Next, conn_Write_. rewrite Hl.
    cbn [trace add_events set_buf buf]. rewrite Hw.
    destruct (conn_Write c _ _) as [e|].
    + unfold conn_Close, emit. rewrite handleError_eq.
      cbn [trace add_events set_buf buf jobs join].
      rewrite <- !app_assoc. cbn [app].
      rewrite calls_fail_skip by reflexivity. unfold ret.
      unfold add_events, set_buf; cbn. now rewrite <- !app_assoc.
    + unfold ret, add_events, set_buf; cbn. now rewrite <- !app_assoc.
Qed.

(** [flushN] always returns when [n] is not negative; it keeps the
    connection or drops it, and leaves the queue and the wait group
    alone. *)
Lemma flushN_returns (conn : option Conn) (config : Config) (n : Z) (s : state) :
  0 <= n ->
  exists conn' s',
    flushN conn config n s = (Ret conn', s') /\
    (conn' = conn \/ conn' = None) /\
    s'.(jobs) = s.(jobs) /\ s'.(join) = s.(join).
Proof.
  intros Hn. destruct conn as [c|].
  - rewrite flushN_some_eq by exact Hn. cbv zeta.
    destruct (conn_SetWriteDeadline c _) as [e|];
      [|destruct (conn_Write c _ _) as [e|]];
      eexists; eexists; (split; [reflexivity|]); cbn; auto.
  - exists None, s. cbn; auto.
Qed.

(** C1, as the code has it: with no connection [flushN] does nothing.  With
    a connection, when the deadline cannot be set the connection is closed
    and dropped, the error is reported through [handleError] (one call of
    the callback) and the buffer is untouched; when the write fails the
    same happens, but the [n] bytes handed to [conn.Write] have already
    left the buffer; when the write succeeds the [n] bytes at the front
    have been written and removed and the connection is kept. *)
Theorem flushN_outcomes (config : Config) (f : FailFunc) (n : Z) (s : state) :
  config.(Fail) = Some f ->
  0 <= n <= Z.of_nat (List.length s.(buf)) ->
  let p := firstn (Z.to_nat n) s.(buf) in
  let rest := skipn (Z.to_nat n) s.(buf) in
  let nf := calls is_fail s.(trace) in
  flushN None config n s = (Ret None, s) /\
  (forall c : Conn,
     let id := c.(conn_id) in
     let deadline := c.(conn_SetWriteDeadline) (calls (is_deadline_of id) s.(trace)) in
     let wr := c.(conn_Write) p (calls (is_write_of id) s.(trace)) in
     (forall e, deadline = Some e ->
        flushN (Some c) config n s =
        (Ret None,
         add_events (EvSetWriteDeadline id config.(WriteTimeout)
                     :: EvConnClose id :: report_events f e nf) s)) /\
     (forall e, deadline = None -> wr = Some e ->
        flushN (Some c) config n s =
        (Ret None,
         add_events (EvSetWriteDeadline id config.(WriteTimeout)
                     :: EvWrite id p :: EvConnClose id :: report_events f e nf)
           (set_buf rest s))) /\
     (deadline = None -> wr = None ->
        flushN (Some c) config n s =
        (Ret (Some c),
         add_events [EvSetWriteDeadline id config.(WriteTimeout); EvWrite id p]
           (set_buf rest s)))) /\
  s.(buf) = p ++ rest /\
  Z.of_nat (List.length p) = n /\
  (forall e, failures (report_events f e nf) = [e]).
Proof.
  intros Hf Hn p rest nf.
  split; [reflexivity|].
  split; [|split; [symmetry; apply firstn_skipn|split]].
  - intros c id deadline wr.
    pose proof (flushN_some_eq c config n s (proj1 Hn)) as Heq.
    cbv zeta in Heq. fold id p rest nf deadline in Heq. fold wr in Heq.
    repeat split.
    + intros e He. rewrite Heq, He. now rewrite (reported_some config f) by exact Hf.
    + intros e Hd He. rewrite Heq, Hd, He.
      now rewrite (reported_some config f) by exact Hf.
    + intros Hd He. now rewrite Heq, Hd, He.
  - unfold p. rewrite length_firstn. lia.
  - intros e. apply failures_report_events.
Qed.

(** [flush] is [flushN] of the whole buffer. *)
Lemma flush_eq (conn : option Conn) (config : Config) (s : state) :
  flush conn config s = flushN conn config (Z.of_nat (List.length s.(buf))) s.
Proof. reflexivity. Qed.

(** ** Encoding a job and the flush rule *)

(** [write] once the codec has answered. *)
Lemma write_eq (conn : option Conn) (j : job) (config : Config) (s : state)
      (p : list byte) (err : option error) :
  j.(write_) config.(Protocol_) j.(metric) j.(value_) = Ret (p, err) ->
  write conn j config s =
  let s1 := set_buf (s.(buf) ++ p) s in
  match err with
  | Some e => (Ret conn, snd (handleError e config s1))
  | None =>
    if Z.of_nat (List.length (s.(buf) ++ p)) >=? config.(BufferSize) then
      flushN conn config
        (if Z.of_nat (List.length s.(buf)) =? 0
         then Z.of_nat (List.length (s.(buf) ++ p))
         else Z.of_nat (List.length s.(buf))) s1
    else (Ret conn, s1)
  end.
Proof.
  intros Henc. unfold write, bind, buf_Len, job_write. rewrite Henc.
  destruct err as [e|]; cbn [set_buf buf].
  - now rewrite handleError_eq.
  - destruct (_ >=? _); reflexivity.
Qed.

(** C2: when the codec succeeds, with [before] and [after] the lengths of
    the buffer around the encoding: below the threshold nothing is flushed
    (the connection and the trace are as they were, the buffer has grown by
    the job's bytes); at or above it, [flushN] is called for the whole
    buffer if [before] is zero and for the [before] older bytes otherwise.
    On a connection that takes the write, the bytes written are then the
    whole buffer, respectively the older bytes, and what stays in the
    buffer is nothing, respectively the job's bytes. *)
Theorem write_flush_rule (conn : option Conn) (j : job) (config : Config)
        (s : state) (p : list byte) :
  j.(write_) config.(Protocol_) j.(metric) j.(value_) = Ret (p, None) ->
  let before := Z.of_nat (List.length s.(buf)) in
  let after := Z.of_nat (List.length (s.(buf) ++ p)) in
  let s1 := set_buf (s.(buf) ++ p) s in
  (after < config.(BufferSize) -> write conn j config s = (Ret conn, s1)) /\
  (after >= config.(BufferSize) -> before = 0 ->
   write conn j config s = flushN conn config after s1) /\
  (after >= config.(BufferSize) -> before <> 0 ->
   write conn j config s = flushN conn config before s1) /\
  (forall c : Conn,
     conn = Some c ->
     let id := c.(conn_id) in
     c.(conn_SetWriteDeadline) (calls (is_deadline_of id) s.(trace)) = None ->
     (forall q, c.(conn_Write) q (calls (is_write_of id) s.(trace)) = None) ->
     after >= config.(BufferSize) ->
     (before = 0 ->
      write conn j config s =
      (Ret (Some c),
       add_events [EvSetWriteDeadline id config.(WriteTimeout); EvWrite id p]
         (set_buf [] s))) /\
     (before <> 0 ->
      write conn j config s =
      (Ret (Some c),
       add_events [EvSetWriteDeadline id config.(WriteTimeout);
                   EvWrite id s.(buf)]
         (set_buf p s)))).
Proof.
  intros Henc before after s1.
  pose proof (write_eq conn j config s p None Henc) as Hw.
  cbv zeta in Hw. fold before after s1 in Hw.
  assert (Hlow : after < BufferSize config -> write conn j config s = (Ret conn, s1)).
  { intros Hlt. rewrite Hw.
    destruct (Z.geb_spec after (BufferSize config)) as [Hge|_]; [lia | reflexivity]. }
  assert (Hzero : after >= BufferSize config -> before = 0 ->
                  write conn j config s = flushN conn config after s1).
  { intros Hge Hb. rewrite Hw.
    destruct (Z.geb_spec after (BufferSize config)) as [_|Hlt]; [|lia].
    now rewrite Hb. }
  assert (Hnz : after >= BufferSize config -> before <> 0 ->
                write conn j config s = flushN conn config before s1).
  { intros Hge Hb. rewrite Hw.
    destruct (Z.geb_spec after (BufferSize config)) as [_|Hlt]; [|lia].
    destruct (Z.eqb_spec before 0) as [Hb0|_]; [contradiction | reflexivity]. }
  split; [exact Hlow | split; [exact Hzero | split; [exact Hnz |]]].
  intros c Hc id Hdl Hwr Hge. split.
  - intros Hb. subst conn.
    assert (Hnil : s.(buf) = []).
    { destruct (buf s); [reflexivity | unfold before in Hb; cbn in Hb; lia]. }
    rewrite Hzero by assumption.
    unfold flushN, bind, SetWriteDeadline, buf_Next, conn_Write_, ret.
    cbn [trace s1 set_buf buf add_events]. fold id. rewrite Hdl.
    replace (after <? 0) with false by (symmetry; apply Z.ltb_ge; unfold after; lia).
    cbn [trace s1 set_buf buf add_events jobs join].
    rewrite calls_app. cbn [calls filter is_write_of List.length].
    rewrite Nat.add_0_r, Hwr.
    unfold after. rewrite Nat2Z.id, firstn_all, skipn_all, Hnil.
    cbn [app]. unfold add_events, set_buf; cbn. now rewrite <- app_assoc.
  - intros Hb. subst conn.
    rewrite Hnz by assumption.
    unfold flushN, bind, SetWriteDeadline, buf_Next, conn_Write_, ret.
    cbn [trace s1 set_buf buf add_events]. fold id. rewrite Hdl.
    replace (before <? 0) with false by (symmetry; apply Z.ltb_ge; unfold before; lia).
    cbn [trace s1 set_buf buf add_events jobs join].
    rewrite calls_app. cbn [calls filter is_write_of List.length].
    rewrite Nat.add_0_r, Hwr.
    unfold before. rewrite Nat2Z.id.
    rewrite firstn_app, Nat.sub_diag, firstn_all, firstn_O, app_nil_r.
    rewrite skipn_app, Nat.sub_diag, skipn_all. cbn [app skipn].
    unfold add_events, set_buf; cbn. now rewrite <- app_assoc.
Qed.

(** C8: when the codec returns an error, [write] reports it through one
    call of the callback and returns the connection it was given; the
    buffer is what it was followed by the bytes the codec wrote before
    failing; nothing is flushed, however long the buffer has become; and
    the worker goes on to the next round of its loop. *)
Theorem write_encode_error (conn : option Conn) (j : job) (config : Config)
        (f : FailFunc) (s : state) (p : list byte) (e : error) :
  config.(Fail) = Some f ->
  j.(write_) config.(Protocol_) j.(metric) j.(value_) = Ret (p, Some e) ->
  let report := report_events f e (calls is_fail s.(trace)) in
  write conn j config s =
    (Ret conn, add_events report (set_buf (s.(buf) ++ p) s)) /\
  failures report = [e] /\
  forallb (fun ev => negb (is_flush_event ev)) report = true /\
  (forall (b : backend) (eng : engine) (rest : list job),
     eng.(pos) = AtSelect ->
     eng.(conn_) = conn ->
     eng.(world) =
       set_jobs {| items := j :: rest; cap := s.(jobs).(cap);
                   closed := s.(jobs).(closed) |} s ->
     step config b eng
       {| world := add_events (EvRecv j :: report)
                     (set_buf (s.(buf) ++ p)
                        (set_jobs {| items := rest; cap := s.(jobs).(cap);
                                     closed := s.(jobs).(closed) |} s));
          conn_ := conn;
          pos := AtLoopTop |}).
Proof.
  intros Hf Henc report.
  assert (Hw : forall s0,
             write conn j config s0 =
             (Ret conn, add_events (report_events f e (calls is_fail s0.(trace)))
                          (set_buf (s0.(buf) ++ p) s0))).
  { intros s0. rewrite (write_eq conn j config s0 p (Some e) Henc).
    cbv zeta. rewrite handleError_some with (f := f) by exact Hf. reflexivity. }
  split; [apply Hw|].
  split; [apply failures_report_events|].
  split; [apply report_events_no_flush|].
  intros b eng rest Hpos Hconn Hworld.
  eapply step_jobs with (sel := SelJob j).
  - exact Hpos.
  - unfold recv_jobs. rewrite Hworld. cbn [jobs set_jobs items]. reflexivity.
  - cbn [handle]. unfold bind. rewrite Hconn, Hw. cbn [ret].
    unfold ret. f_equal.
    cbn [trace add_events set_jobs buf set_buf jobs join].
    rewrite calls_fail_skip by reflexivity.
    unfold add_events, set_buf, set_jobs; cbn. now rewrite <- app_assoc.
Qed.

(** ** Isolation of the failure callback *)

(** C6: when the configured callback panics with [v] on the error it is
    given, [handleError] returns normally, having written the panic value
    and the stack trace to [os.Stderr] after the call.  Whatever the
    callback does, the three places where the worker reports an error
    (a failed dial, a failed encoding, a failed flush) return normally,
    and from its [select] the worker can always take the timer's case and
    come back to the head of its loop. *)
Theorem callback_panic_isolated (config : Config) (f : FailFunc) (err : error)
        (v : string) (s : state) :
  config.(Fail) = Some f ->
  (f err (calls is_fail s.(trace))).(cb_panic) = Some v ->
  handleError err config s =
    (Ret tt,
     add_events
       (EvFail err
        :: map EvStderr (f err (calls is_fail s.(trace))).(cb_stderr)
        ++ [EvStderr (panic_line v); EvStack]) s) /\
  (forall s0 d c,
     config.(Dial) = Some d ->
     d config.(Network) config.(Address) (calls is_dial s0.(trace)) = (c, Some err) ->
     fst (dial config s0) = Ret c) /\
  (forall s0 conn j p,
     j.(write_) config.(Protocol_) j.(metric) j.(value_) = Ret (p, Some err) ->
     fst (write conn j config s0) = Ret conn) /\
  (forall s0 c n,
     0 <= n ->
     c.(conn_SetWriteDeadline) (calls (is_deadline_of c.(conn_id)) s0.(trace))
       = Some err \/
     c.(conn_Write) (firstn (Z.to_nat n) s0.(buf))
       (calls (is_write_of c.(conn_id)) s0.(trace)) = Some err ->
     fst (flushN (Some c) config n s0) = Ret None) /\
  (forall (b : backend) (eng : engine),
     eng.(pos) = AtSelect ->
     exists eng', step config b eng eng' /\ eng'.(pos) = AtLoopTop).
Proof.
  intros Hf Hp.
  split; [|split; [|split; [|split]]].
  - rewrite handleError_some with (f := f) by exact Hf.
    unfold report_events. now rewrite Hp.
  - intros s0 d c Hd Hr. unfold dial, bind, call_Dial. rewrite Hd, Hr.
    cbn [snd fst]. now rewrite handleError_eq.
  - intros s0 conn j p Henc.
    now rewrite (write_eq conn j config s0 p (Some err) Henc).
  - intros s0 c n Hn Herr. rewrite flushN_some_eq by exact Hn. cbv zeta.
    destruct Herr as [He|He].
    + now rewrite He.
    + destruct (conn_SetWriteDeadline c _); [reflexivity | now rewrite He].
  - intros b eng Hpos.
    destruct (flushN_returns eng.(conn_) config
                (Z.of_nat (List.length (snd (recv_timer eng.(world))).(buf)))
                (snd (recv_timer eng.(world)))) as (conn' & s' & Hfl & _);
      [lia|].
    eexists. split.
    + eapply step_timer; [exact Hpos|].
      cbn [handle]. unfold bind. rewrite flush_eq, Hfl. reflexivity.
    + reflexivity.
Qed.

(** ** Connecting with backoff *)

Lemma calls_fail_report_events (f : FailFunc) (err : error) (n : nat) :
  calls is_fail (report_events f err n) = 1%nat.
Proof.
  unfold report_events, calls. cbn [filter is_fail List.length].
  rewrite filter_app.
  replace (filter is_fail (map EvStderr (cb_stderr (f err n)))) with (@nil event).
  - now destruct (cb_panic (f err n)).
  - induction (cb_stderr (f err n)); [reflexivity | exact IHl].
Qed.

Lemma calls_dial_report_events (f : FailFunc) (err : error) (n : nat) :
  calls is_dial (report_events f err n) = 0%nat.
Proof.
  unfold report_events, calls. cbn [filter is_dial List.length].
  rewrite filter_app.
  replace (filter is_dial (map EvStderr (cb_stderr (f err n)))) with (@nil event).
  - now destruct (cb_panic (f err n)).
  - induction (cb_stderr (f err n)); [reflexivity | exact IHl].
Qed.

(** One failed attempt: [dial] reports the error, [connect] sleeps, and the
    loop goes on with the delay put through [backoff]. *)
Lemma connect_loop_failed (fuel : nat) (config : Config) (f : FailFunc)
      (d : DialFunc) (err : error) (r : Duration) (s : state) :
  config.(Fail) = Some f ->
  config.(Dial) = Some d ->
  d config.(Network) config.(Address) (calls is_dial s.(trace)) = (None, Some err) ->
  connect_loop (S fuel) config r s =
  connect_loop fuel config (backoff r config.(RetryAfterMax))
    (add_events (failed_round config f err (calls is_fail s.(trace)) r) s).
Proof.
  intros Hf Hd Hr.
  cbn [connect_loop]. unfold bind at 1. unfold dial, bind, call_Dial.
  rewrite Hd, Hr. cbn [snd fst].
  rewrite handleError_some with (f := f) by exact Hf.
  unfold ret, sleep, bind, emit. rewrite !add_events_app.
  cbn [trace add_events]. rewrite calls_fail_skip by reflexivity.
  reflexivity.
Qed.

Lemma connect_loop_success (fuel : nat) (config : Config) (d : DialFunc)
      (c : Conn) (r : Duration) (s : state) :
  config.(Dial) = Some d ->
  d config.(Network) config.(Address) (calls is_dial s.(trace)) = (Some c, None) ->
  connect_loop (S fuel) config r s =
  (Ret c, add_events [EvDial config.(Network) config.(Address)] s).
Proof.
  intros Hd Hr.
  cbn [connect_loop]. unfold bind at 1. unfold dial, bind, call_Dial.
  now rewrite Hd, Hr.
Qed.

Lemma flat_map_seq_shift {A} (g : nat -> list A) (a k : nat) :
  flat_map g (seq (S a) k) = flat_map (fun i => g (S i)) (seq a k).
Proof.
  revert a. induction k as [|k IH]; intros a; [reflexivity|].
  cbn [seq flat_map]. now rewrite IH.
Qed.

(** [k] failed attempts and a successful one, from any starting delay. *)
Lemma connect_loop_rounds (config : Config) (f : FailFunc) (d : DialFunc)
      (c : Conn) (k : nat) :
  config.(Fail) = Some f ->
  config.(Dial) = Some d ->
  forall (e : nat -> error) (r : Duration) (s : state) (fuel : nat),
    (forall i, (i < k)%nat ->
       d config.(Network) config.(Address) (calls is_dial s.(trace) + i)%nat
       = (None, Some (e i))) ->
    d config.(Network) config.(Address) (calls is_dial s.(trace) + k)%nat
      = (Some c, None) ->
    (k < fuel)%nat ->
    connect_loop fuel config r s =
    (Ret c,
     add_events
       (flat_map (fun i =>
                    failed_round config f (e i) (calls is_fail s.(trace) + i)%nat
                      (Nat.iter i (fun x => backoff x config.(RetryAfterMax)) r))
          (seq 0 k)
        ++ [EvDial config.(Network) config.(Address)]) s).
Proof.
  intros Hf Hd. induction k as [|k IH]; intros e r s fuel Hfail Hok Hfuel.
  - destruct fuel as [|fuel]; [lia|].
    rewrite Nat.add_0_r in Hok.
    now rewrite (connect_loop_success fuel config d c r s Hd Hok).
  - destruct fuel as [|fuel]; [lia|].
    assert (H0 : d (Network config) (Address config) (calls is_dial (trace s))
                 = (None, Some (e 0%nat))).
    { rewrite <- (Nat.add_0_r (calls is_dial (trace s))). apply Hfail. lia. }
    rewrite (connect_loop_failed fuel config f d (e 0%nat) r s Hf Hd H0).
    set (s1 := add_events _ s).
    assert (Hnd : calls is_dial (trace s1) = S (calls is_dial (trace s))).
    { unfold s1, failed_round. cbn [trace add_events].
      rewrite calls_app. unfold calls at 2. cbn [filter is_dial List.length].
      rewrite filter_app. fold (calls is_dial (report_events f (e 0%nat) (calls is_fail (trace s)))).
      rewrite length_app.
      change (List.length (filter is_dial (report_events f (e 0%nat) (calls is_fail (trace s)))))
        with (calls is_dial (report_events f (e 0%nat) (calls is_fail (trace s)))).
      rewrite calls_dial_report_events. cbn. lia. }
    assert (Hnf : calls is_fail (trace s1) = S (calls is_fail (trace s))).
    { unfold s1, failed_round. cbn [trace add_events].
      rewrite calls_app. unfold calls at 2. cbn [filter is_fail List.length].
      rewrite filter_app, length_app.
      change (List.length (filter is_fail (report_events f (e 0%nat) (calls is_fail (trace s)))))
        with (calls is_fail (report_events f (e 0%nat) (calls is_fail (trace s)))).
      rewrite calls_fail_report_events. cbn. lia. }
    rewrite (IH (fun i => e (S i)) (backoff r (RetryAfterMax config)) s1 fuel).
    + rewrite Hnf. unfold s1. rewrite add_events_app. f_equal. f_equal.
      cbn [seq flat_map]. rewrite flat_map_seq_shift.
      rewrite Nat.add_0_r. cbn [Nat.iter]. rewrite <- app_assoc. f_equal. f_equal.
      apply flat_map_ext. intros i.
      replace (S (calls is_fail (trace s)) + i)%nat
        with (calls is_fail (trace s) + S i)%nat by lia.
      f_equal. rewrite Nat.iter_succ.
      exact (Nat.iter_swap i Duration (fun x => backoff x (RetryAfterMax config)) r).
    + intros i Hi. rewrite Hnd.
      replace (S (calls is_dial (trace s)) + i)%nat
        with (calls is_dial (trace s) + S i)%nat by lia.
      apply Hfail. lia.
    + rewrite Hnd.
      replace (S (calls is_dial (trace s)) + k)%nat
        with (calls is_dial (trace s) + S k)%nat by lia.
      exact Hok.
    + lia.
Qed.

(** While no attempt yields a connection, the loop uses up any fuel. *)
Lemma connect_loop_diverges (config : Config) (d : DialFunc) :
  config.(Dial) = Some d ->
  (forall i, fst (d config.(Network) config.(Address) i) = None) ->
  forall (fuel : nat) (r : Duration) (s : state),
    fst (connect_loop fuel config r s) = OutOfFuel.
Proof.
  intros Hd Hnone. induction fuel as [|fuel IH]; intros r s; [reflexivity|].
  cbn [connect_loop]. unfold bind at 1. unfold dial, bind, call_Dial.
  rewrite Hd.
  pose proof (Hnone (calls is_dial (trace s))) as Hn.
  destruct (d _ _ _) as [conn err]. cbn [fst snd] in *. subst conn.
  destruct err as [err|].
  - rewrite handleError_eq. unfold ret, sleep, bind, emit. apply IH.
  - unfold ret, sleep, bind, emit. apply IH.
Qed.

Lemma wrap64_small (z : Z) : - 2 ^ 63 <= z < 2 ^ 63 -> wrap64 z = z.
Proof.
  intros H. unfold wrap64. rewrite Z.mod_small; lia.
Qed.

(** With sane bounds the code's delays are the doubled ones. *)
Lemma nth_delay_doubled (config : Config) (i : nat) :
  0 <= config.(RetryAfterMin) <= config.(RetryAfterMax) ->
  config.(RetryAfterMax) <= 2 ^ 62 - 1 ->
  nth_delay config i = doubled_delay config i.
Proof.
  intros Hmin Hmax. unfold nth_delay, doubled_delay.
  induction i as [|i IH].
  - cbn. rewrite Z.mul_1_r. lia.
  - rewrite Nat.iter_succ, IH. unfold backoff.
    rewrite Nat2Z.inj_succ, Z.pow_succ_r by lia.
    set (m := RetryAfterMin config) in *. set (M := RetryAfterMax config) in *.
    assert (Hp : 0 < 2 ^ Z.of_nat i) by (apply Z.pow_pos_nonneg; lia).
    set (q := 2 ^ Z.of_nat i) in *.
    assert (Hd : 0 <= Z.min (m * q) M <= M) by nia.
    rewrite wrap64_small by lia.
    destruct (Z.gtb_spec (Z.min (m * q) M + Z.min (m * q) M) M); nia.
Qed.

(** C3, under sane bounds ([0 <= RetryAfterMin <= RetryAfterMax < 2^62]
    nanoseconds): in one call of [connect], from any state, when the first
    [k] attempts fail with the errors [e 0 .. e (k-1)] and the next one
    yields the connection [c], [connect] returns [c] as soon as it has fuel
    for [k + 1] attempts, and what it did is, for each failed attempt in
    turn, the dial, one report of its error through the callback, and then
    a sleep of [min (RetryAfterMin * 2^i) RetryAfterMax] for the attempt
    number [i + 1], followed by the dial that succeeded.  While no attempt
    yields a connection, [connect] does not return, whatever the fuel. *)
Theorem connect_backoff (config : Config) (f : FailFunc) (d : DialFunc)
        (s : state) :
  config.(Fail) = Some f ->
  config.(Dial) = Some d ->
  0 <= config.(RetryAfterMin) <= config.(RetryAfterMax) ->
  config.(RetryAfterMax) <= 2 ^ 62 - 1 ->
  (forall (k : nat) (e : nat -> error) (c : Conn) (fuel : nat),
     (forall i, (i < k)%nat ->
        d config.(Network) config.(Address) (calls is_dial s.(trace) + i)%nat
        = (None, Some (e i))) ->
     d config.(Network) config.(Address) (calls is_dial s.(trace) + k)%nat
       = (Some c, None) ->
     (k < fuel)%nat ->
     connect fuel config s =
     (Ret c,
      add_events
        (flat_map (fun i =>
                     EvDial config.(Network) config.(Address)
                     :: report_events f (e i) (calls is_fail s.(trace) + i)
                     ++ [EvSleep (Z.min (config.(RetryAfterMin) * 2 ^ Z.of_nat i)
                                        config.(RetryAfterMax))])
           (seq 0 k)
         ++ [EvDial config.(Network) config.(Address)]) s)) /\
  ((forall i, fst (d config.(Network) config.(Address) i) = None) ->
   forall fuel, fst (connect fuel config s) = OutOfFuel).
Proof.
  intros Hf Hd Hmin Hmax. split.
  - intros k e c fuel Hfail Hok Hfuel. unfold connect.
    rewrite (connect_loop_rounds config f d c k Hf Hd e _ s fuel Hfail Hok Hfuel).
    f_equal. f_equal. f_equal. apply flat_map_ext. intros i.
    unfold failed_round. do 4 f_equal.
    exact (nth_delay_doubled config i Hmin Hmax).
  - intros Hnone fuel. unfold connect.
    now apply connect_loop_diverges with (d := d).
Qed.

(** ** What the worker's actions leave alone *)

Lemma enqueued_app (t1 t2 : list event) :
  enqueued (t1 ++ t2) = enqueued t1 ++ enqueued t2.
Proof.
  induction t1 as [|e t1 IH]; [reflexivity|].
  destruct e; cbn; now rewrite ?IH.
Qed.

Lemma received_app (t1 t2 : list event) :
  received (t1 ++ t2) = received t1 ++ received t2.
Proof.
  induction t1 as [|e t1 IH]; [reflexivity|].
  destruct e; cbn; now rewrite ?IH.
Qed.

Lemma no_queue_events (es : list event) :
  forallb (fun e => negb (is_queue_event e)) es = true ->
  enqueued es = [] /\ received es = [] /\ calls is_arrival es = 0%nat.
Proof.
  induction es as [|e es IH]; [now cbn|].
  cbn [forallb]. intros H. apply andb_true_iff in H as [He Hes].
  destruct (IH Hes) as (IH1 & IH2 & IH3).
  destruct e; cbn in He; try discriminate; cbn; auto.
Qed.

Lemma frame_refl (s : state) : frame s s.
Proof. now unfold frame. Qed.

Lemma frame_trans (s1 s2 s3 : state) : frame s1 s2 -> frame s2 s3 -> frame s1 s3.
Proof.
  unfold frame. intros (A1 & A2 & A3 & A4 & A5) (B1 & B2 & B3 & B4 & B5).
  repeat split; congruence.
Qed.

Lemma frame_add_events (es : list event) (s : state) :
  forallb (fun e => negb (is_queue_event e)) es = true ->
  frame s (add_events es s).
Proof.
  intros H. destruct (no_queue_events es H) as (H1 & H2 & H3).
  unfold frame. cbn [add_events jobs join trace].
  rewrite enqueued_app, received_app, calls_app, H1, H2, H3, !app_nil_r.
  repeat split; auto.
Qed.

Lemma frame_set_buf (b : list byte) (s : state) : frame s (set_buf b s).
Proof. now unfold frame. Qed.

Lemma quiet_ret {A} (a : A) : quiet (ret a).
Proof. intros s. apply frame_refl. Qed.

Lemma quiet_bind {A B} (m : M A) (f : A -> M B) :
  quiet m -> (forall a, quiet (f a)) -> quiet (bind m f).
Proof.
  intros Hm Hf s. unfold bind. specialize (Hm s).
  destruct (m s) as [[a|v|] s1]; cbn [snd] in *; try exact Hm.
  eapply frame_trans; [exact Hm | apply Hf].
Qed.

Lemma quiet_emit (e : event) : is_queue_event e = false -> quiet (emit e).
Proof.
  intros He s. unfold emit. cbn [snd]. apply frame_add_events.
  cbn. now rewrite He.
Qed.

Lemma reported_no_queue_events (config : Config) (err : error) (n : nat) :
  forallb (fun e => negb (is_queue_event e)) (reported config err n) = true.
Proof.
  unfold reported, report_events. destruct (Fail config) as [f|]; [|reflexivity].
  cbn [forallb is_queue_event negb andb]. rewrite forallb_app.
  apply andb_true_iff; split.
  - induction (cb_stderr (f err n)); [reflexivity | exact IHl].
  - now destruct (cb_panic (f err n)).
Qed.

Lemma quiet_handleError (err : error) (config : Config) :
  quiet (handleError err config).
Proof.
  intros s. rewrite handleError_eq. cbn [snd].
  apply frame_add_events, reported_no_queue_events.
Qed.

Lemma quiet_dial (config : Config) : quiet (dial config).
Proof.
  unfold dial. apply quiet_bind.
  - intros s. unfold call_Dial. destruct (Dial config); cbn [snd].
    + now apply frame_add_events.
    + apply frame_refl.
  - intros r. apply quiet_bind; [|intros; apply quiet_ret].
    destruct (snd r); [apply quiet_handleError | apply quiet_ret].
Qed.

Lemma quiet_connect_loop (fuel : nat) (config : Config) (r : Duration) :
  quiet (connect_loop fuel config r).
Proof.
  revert r. induction fuel as [|fuel IH]; intros r.
  - intros s. apply frame_refl.
  - cbn [connect_loop]. apply quiet_bind; [apply quiet_dial|].
    intros [c|]; [apply quiet_ret|].
    apply quiet_bind.
    + unfold sleep. apply quiet_bind; [now apply quiet_emit | intros; apply quiet_ret].
    + intros r'. apply IH.
Qed.

Lemma quiet_ensure_conn (fuel : nat) (config : Config) (conn : option Conn) :
  quiet (ensure_conn fuel config conn).
Proof.
  destruct conn as [c|]; cbn [ensure_conn]; [apply quiet_ret|].
  apply quiet_bind; [apply quiet_connect_loop | intros; apply quiet_ret].
Qed.

Lemma quiet_flushN (conn : option Conn) (config : Config) (n : Z) :
  quiet (flushN conn config n).
Proof.
  destruct conn as [c|]; cbn [flushN]; [|apply quiet_ret].
  apply quiet_bind.
  - intros s. unfold SetWriteDeadline. cbn [snd]. now apply frame_add_events.
  - intros err. apply quiet_bind.
    + destruct err as [e|]; [apply quiet_ret|].
      apply quiet_bind.
      * intros s. unfold buf_Next. destruct (n <? 0); cbn [snd];
          [apply frame_refl | apply frame_set_buf].
      * intros p s. unfold conn_Write_. cbn [snd]. now apply frame_add_events.
    + intros [e|]; [|apply quiet_ret].
      apply quiet_bind; [now apply quiet_emit|]. intros _.
      apply quiet_bind; [apply quiet_handleError | intros; apply quiet_ret].
Qed.

Lemma quiet_flush (conn : option Conn) (config : Config) :
  quiet (flush conn config).
Proof.
  unfold flush. apply quiet_bind; [intros s; apply frame_refl|].
  intros n. apply quiet_flushN.
Qed.

Lemma quiet_write (conn : option Conn) (j : job) (config : Config) :
  quiet (write conn j config).
Proof.
  unfold write. apply quiet_bind; [intros s; apply frame_refl|]. intros n1.
  apply quiet_bind.
  - intros s. unfold job_write.
    destruct (write_ j _ _ _) as [[p err]|v|]; cbn [snd];
      [apply frame_set_buf | apply frame_refl | apply frame_refl].
  - intros [e|].
    + apply quiet_bind; [apply quiet_handleError | intros; apply quiet_ret].
    + apply quiet_bind; [intros s; apply frame_refl|]. intros n2.
      destruct (n2 >=? BufferSize config); [apply quiet_flushN | apply quiet_ret].
Qed.

Lemma quiet_handle_tick_or_job (sel : selected) (conn : option Conn)
      (config : Config) :
  quiet (handle sel conn config).
Proof.
  destruct sel; cbn [handle];
    (apply quiet_bind; [|intros; apply quiet_ret]);
    [apply quiet_write | apply quiet_flush | apply quiet_flush].
Qed.

(** ** Submitting to the queue *)

Lemma call_Fail_some (f : FailFunc) (err : error) (s : state) :
  call_Fail (Some f) err s =
  (match (f err (calls is_fail s.(trace))).(cb_panic) with
   | Some v => Panic v
   | None => Ret tt
   end,
   add_events
     (EvFail err :: map EvStderr (f err (calls is_fail s.(trace))).(cb_stderr)) s).
Proof.
  unfold call_Fail. now destruct (cb_panic _).
Qed.

(** A call of the callback only adds its own events. *)
Lemma call_Fail_events (fl : option FailFunc) (err : error) (s : state) :
  exists es,
    snd (call_Fail fl err s) = add_events es s /\
    forallb (fun e => negb (is_queue_event e)) es = true /\
    fst (call_Fail fl err s) <> OutOfFuel.
Proof.
  destruct fl as [f|].
  - rewrite call_Fail_some. eexists. split; [reflexivity|]. split.
    + cbn [forallb is_queue_event negb andb].
      induction (cb_stderr _); [reflexivity | exact IHl].
    + cbn [fst]. destruct (cb_panic _); discriminate.
  - exists []. cbn. rewrite add_events_nil. repeat split. discriminate.
Qed.

(** On a closed queue the send panics, the deferred function recovers and
    reports the job as discarded: the queue does not change. *)
Lemma enqueue_closed (j : job) (fl : option FailFunc) (s : state) :
  s.(jobs).(closed) = true ->
  enqueue j fl s = call_Fail fl (queue_closed_error j) s.
Proof.
  intros Hc. unfold enqueue, deferred, bind, send_or_default. now rewrite Hc.
Qed.

(** With room in an open queue the job is appended and nothing is
    reported. *)
Lemma enqueue_accepted (j : job) (fl : option FailFunc) (s : state) :
  s.(jobs).(closed) = false ->
  Z.of_nat (List.length s.(jobs).(items)) < s.(jobs).(cap) ->
  enqueue j fl s =
  (Ret tt,
   add_events [EvEnqueue j]
     (set_jobs {| items := s.(jobs).(items) ++ [j]; cap := s.(jobs).(cap);
                  closed := false |} s)).
Proof.
  intros Hc Hlen. unfold enqueue, deferred, bind, send_or_default.
  rewrite Hc. destruct (Z.ltb_spec (Z.of_nat (List.length (items (jobs s))))
                          (cap (jobs s))); [reflexivity | lia].
Qed.

(** On an open queue at capacity the job is dropped and reported as such;
    if the callback panics there, the deferred function recovers that
    panic too, and reports the job a second time, as if the queue were
    closed. *)
Lemma enqueue_full (j : job) (f : FailFunc) (s : state) :
  s.(jobs).(closed) = false ->
  s.(jobs).(cap) <= Z.of_nat (List.length s.(jobs).(items)) ->
  let o := f (queue_full_error j) (calls is_fail s.(trace)) in
  let s1 := add_events (EvFail (queue_full_error j) :: map EvStderr o.(cb_stderr)) s in
  enqueue j (Some f) s =
  match o.(cb_panic) with
  | None => (Ret tt, s1)
  | Some _ => call_Fail (Some f) (queue_closed_error j) s1
  end.
Proof.
  intros Hc Hlen o s1. unfold enqueue, deferred, bind, send_or_default.
  rewrite Hc. destruct (Z.ltb_spec (Z.of_nat (List.length (items (jobs s))))
                          (cap (jobs s))); [lia|].
  rewrite call_Fail_some. fold o. fold s1. now destruct (cb_panic o).
Qed.

(** With a callback that returns, a job submitted to a full open queue is
    dropped with one report that names the metric and says the queue is
    full, and a job submitted to a closed queue is dropped with one report
    that says the queue was closed; the call returns. *)
Lemma enqueue_reports_once (j : job) (f : FailFunc) (s : state) :
  (forall e n, (f e n).(cb_panic) = None) ->
  (s.(jobs).(closed) = false ->
   s.(jobs).(cap) <= Z.of_nat (List.length s.(jobs).(items)) ->
   exists s', enqueue j (Some f) s = (Ret tt, s') /\
              s'.(jobs) = s.(jobs) /\
              failures s'.(trace) = failures s.(trace) ++ [queue_full_error j]) /\
  (s.(jobs).(closed) = true ->
   exists s', enqueue j (Some f) s = (Ret tt, s') /\
              s'.(jobs) = s.(jobs) /\
              failures s'.(trace) = failures s.(trace) ++ [queue_closed_error j]).
Proof.
  intros Hok. split.
  - intros Hc Hlen. rewrite (enqueue_full j f s Hc Hlen). cbv zeta.
    rewrite Hok. eexists. split; [reflexivity|]. split; [reflexivity|].
    cbn [trace add_events]. rewrite failures_app. cbn [failures].
    now rewrite failures_stderr.
  - intros Hc. rewrite (enqueue_closed j (Some f) s Hc), call_Fail_some, Hok.
    eexists. split; [reflexivity|]. split; [reflexivity|].
    cbn [trace add_events]. rewrite failures_app. cbn [failures].
    now rewrite failures_stderr.
Qed.

(** What any call of [enqueue] can do to the shared state: the buffer and
    the wait group are left alone, the channel keeps its capacity and its
    closed flag, and either nothing enters the queue or, the queue being
    open, the job does. *)
Lemma enqueue_effect (j : job) (fl : option FailFunc) (s : state) :
  let s' := snd (enqueue j fl s) in
  fst (enqueue j fl s) <> OutOfFuel /\
  s'.(buf) = s.(buf) /\ s'.(join) = s.(join) /\
  s'.(jobs).(cap) = s.(jobs).(cap) /\
  s'.(jobs).(closed) = s.(jobs).(closed) /\
  received s'.(trace) = received s.(trace) /\
  calls is_arrival s'.(trace) = calls is_arrival s.(trace) /\
  (exists es, s'.(trace) = s.(trace) ++ es) /\
  ((s'.(jobs).(items) = s.(jobs).(items) /\
    enqueued s'.(trace) = enqueued s.(trace)) \/
   (s.(jobs).(closed) = false /\
    s'.(jobs).(items) = s.(jobs).(items) ++ [j] /\
    enqueued s'.(trace) = enqueued s.(trace) ++ [j])).
Proof.
  assert (Hadd : forall es s0,
             forallb (fun e => negb (is_queue_event e)) es = true ->
             let s1 := add_events es s0 in
             s1.(buf) = s0.(buf) /\ s1.(join) = s0.(join) /\
             s1.(jobs) = s0.(jobs) /\
             received s1.(trace) = received s0.(trace) /\
             calls is_arrival s1.(trace) = calls is_arrival s0.(trace) /\
             enqueued s1.(trace) = enqueued s0.(trace)).
  { intros es s0 Hes. destruct (no_queue_events es Hes) as (H1 & H2 & H3).
    cbn [add_events buf join jobs trace].
    rewrite received_app, calls_app, enqueued_app, H1, H2, H3, !app_nil_r.
    repeat split; auto. }
  cbv zeta.
  destruct (closed (jobs s)) eqn:Hc.
  - rewrite (enqueue_closed j fl s Hc).
    destruct (call_Fail_events fl (queue_closed_error j) s) as (es & Hs & Hes & Hr).
    rewrite Hs. destruct (Hadd es s Hes) as (A1 & A2 & A3 & A4 & A5 & A6).
    rewrite A3. repeat split; auto.
    + exists es. reflexivity.
  - destruct (Z.ltb_spec (Z.of_nat (List.length (items (jobs s)))) (cap (jobs s)))
      as [Hlt|Hge].
    + rewrite (enqueue_accepted j fl s Hc Hlt). cbn [fst snd].
      cbn [add_events set_jobs buf join jobs trace cap closed items].
      rewrite received_app, calls_app, enqueued_app. cbn.
      rewrite app_nil_r, Nat.add_0_r.
      repeat split; auto; try discriminate.
      * now exists [EvEnqueue j].
    + destruct fl as [f|].
      * rewrite (enqueue_full j f s Hc Hge). cbv zeta.
        set (es1 := EvFail (queue_full_error j) :: map EvStderr _).
        assert (Hes1 : forallb (fun e => negb (is_queue_event e)) es1 = true).
        { unfold es1. cbn [forallb is_queue_event negb andb].
          induction (cb_stderr _); [reflexivity | exact IHl]. }
        destruct (Hadd es1 s Hes1) as (A1 & A2 & A3 & A4 & A5 & A6).
        destruct (cb_panic _).
        -- destruct (call_Fail_events (Some f) (queue_closed_error j) (add_events es1 s))
             as (es & Hs & Hes & Hr).
           rewrite Hs.
           destruct (Hadd es (add_events es1 s) Hes) as (B1 & B2 & B3 & B4 & B5 & B6).
           rewrite B3, A3.
           repeat split; auto; try congruence.
           ++ exists (es1 ++ es). cbn [add_events trace]. now rewrite app_assoc.
           ++ left. split; congruence.
        -- cbn [fst snd]. rewrite A3.
           repeat split; auto; try discriminate.
           exists es1. reflexivity.
      * unfold enqueue, deferred, bind, send_or_default. rewrite Hc.
        destruct (Z.ltb_spec (Z.of_nat (List.length (items (jobs s)))) (cap (jobs s)));
          [lia|].
        cbn. repeat split; auto; try discriminate.
        exists []. now rewrite app_nil_r.
Qed.

(** C5, at a failing input: the queue is open and at capacity and the
    callback panics.  [Set] reports the job as dropped because the queue is
    full, the deferred function of [enqueue] takes the callback's panic for
    the panic of a send on a closed channel and reports the job a second
    time, as dropped because the queue was closed, and the panic of that
    second call reaches the caller. *)
Theorem enqueue_full_panicking_callback :
  let s := {| jobs := {| items := [ {| metric := sample_metric;
                                       value_ := Float64 1; write_ := set |} ];
                         cap := 1; closed := false |};
              buf := []; join := 1; trace := [] |} in
  Set_ {| fail := Some panicking_fail |} sample_metric 2 s =
  (Panic "boom",
   add_events
     [EvFail "discarding requests because the metric queue is full";
      EvFail "discarding requests because the metric queue was closed"] s).
Proof. reflexivity. Qed.

(** ** The engine *)

Lemma Close_signal_eq (s : state) :
  Close_signal s =
  (Ret tt,
   if s.(jobs).(closed) then s
   else add_events [EvChanClose]
          (set_jobs {| items := s.(jobs).(items); cap := s.(jobs).(cap);
                       closed := true |} s)).
Proof.
  unfold Close_signal, deferred, close_jobs. now destruct (closed (jobs s)).
Qed.

Lemma typed_Set (m : Metric) (v : Z) :
  typed {| metric := m; value_ := Float64 v; write_ := set |}.
Proof. left. exists v. cbn. auto. Qed.

Lemma typed_Add (m : Metric) (v : Z) :
  typed {| metric := m; value_ := Float64 v; write_ := add |}.
Proof. left. exists v. cbn. auto. Qed.

Lemma typed_Observe (m : Metric) (d : Duration) :
  typed {| metric := m; value_ := DurationValue d; write_ := observe |}.
Proof. right. exists d. cbn. auto. Qed.

(** The assertion of a well typed job succeeds: with a protocol at hand
    its writer returns what the codec returns. *)
Lemma typed_no_panic (j : job) (p : Protocol) :
  typed j ->
  exists out, j.(write_) (Some p) j.(metric) j.(value_) = Ret out.
Proof.
  intros [(v & Hv & [Hw|Hw])|(d & Hv & Hw)]; rewrite Hw, Hv; eexists; reflexivity.
Qed.

(** What a call of the producer API can do to the shared state. *)
Lemma api_effect (b : backend) (c : api_call) (s : state) :
  let s' := snd (api b c s) in
  s'.(buf) = s.(buf) /\ s'.(join) = s.(join) /\
  s'.(jobs).(cap) = s.(jobs).(cap) /\
  (s.(jobs).(closed) = true -> s'.(jobs).(closed) = true) /\
  received s'.(trace) = received s.(trace) /\
  calls is_arrival s'.(trace) = calls is_arrival s.(trace) /\
  (exists es, s'.(trace) = s.(trace) ++ es) /\
  ((s'.(jobs).(items) = s.(jobs).(items) /\
    enqueued s'.(trace) = enqueued s.(trace)) \/
   (s.(jobs).(closed) = false /\
    exists j, typed j /\
      s'.(jobs).(items) = s.(jobs).(items) ++ [j] /\
      enqueued s'.(trace) = enqueued s.(trace) ++ [j])).
Proof.
  assert (Henq : forall j, typed j ->
            let s' := snd (enqueue j b.(fail) s) in
            s'.(buf) = s.(buf) /\ s'.(join) = s.(join) /\
            s'.(jobs).(cap) = s.(jobs).(cap) /\
            (s.(jobs).(closed) = true -> s'.(jobs).(closed) = true) /\
            received s'.(trace) = received s.(trace) /\
            calls is_arrival s'.(trace) = calls is_arrival s.(trace) /\
            (exists es, s'.(trace) = s.(trace) ++ es) /\
            ((s'.(jobs).(items) = s.(jobs).(items) /\
              enqueued s'.(trace) = enqueued s.(trace)) \/
             (s.(jobs).(closed) = false /\
              exists j, typed j /\
                s'.(jobs).(items) = s.(jobs).(items) ++ [j] /\
                enqueued s'.(trace) = enqueued s.(trace) ++ [j]))).
  { intros j Hj.
    destruct (enqueue_effect j b.(fail) s)
      as (_ & A1 & A2 & A3 & A4 & A5 & A6 & A7 & A8).
    cbv zeta. repeat split; auto; try congruence.
    destruct A8 as [A8|(C1 & C2 & C3)]; [now left|].
    right. split; [exact C1|]. now exists j. }
  destruct c as [m v|m v|m v|]; cbn [api].
  - apply Henq, typed_Set.
  - apply Henq, typed_Add.
  - apply Henq, typed_Observe.
  - rewrite Close_signal_eq. cbn [snd].
    destruct (closed (jobs s)) eqn:Hc.
    + repeat split; auto. exists []. now rewrite app_nil_r.
    + cbn [add_events set_jobs buf join jobs trace cap closed items].
      rewrite received_app, calls_app, enqueued_app. cbn.
      rewrite !app_nil_r, Nat.add_0_r. repeat split; auto.
      now exists [EvChanClose].
Qed.

Lemma ensure_conn_some (fuel : nat) (config : Config) (conn conn' : option Conn)
      (s s' : state) :
  ensure_conn fuel config conn s = (Ret conn', s') -> conn' <> None.
Proof.
  destruct conn as [c|]; cbn [ensure_conn].
  - unfold ret. intros Heq. injection Heq as <- _. discriminate.
  - unfold bind, ret. destruct (connect fuel config s) as [[c|v|] s1];
      intros Heq; try discriminate. injection Heq as <- _. discriminate.
Qed.

Lemma run_exit_eq (conn : option Conn) (s s' : state) :
  run_exit conn s = (Ret tt, s') ->
  s.(join) - 1 >= 0 /\
  s' = add_events
         (EvTimerStop ::
          match conn with Some c => [EvConnClose c.(conn_id)] | None => [] end
          ++ [EvDone])
         (set_join (s.(join) - 1) s).
Proof.
  unfold run_exit, bind, emit, join_Done.
  destruct conn as [c|]; unfold conn_Close, emit, ret;
    cbn [add_events set_join jobs buf join trace];
    destruct (Z.ltb_spec (join s - 1) 0); intros Heq; try discriminate;
    injection Heq as <-; (split; [lia|]);
    unfold add_events, set_join; cbn; now rewrite <- ?app_assoc.
Qed.

(** The shapes of a step. *)
Lemma step_cases (config : Config) (b : backend) (e e' : engine) :
  step config b e e' ->
  (exists c,
      e' = {| world := snd (api b c e.(world)); conn_ := e.(conn_);
              pos := e.(pos) |}) \/
  (e.(pos) = AtLoopTop /\ e'.(pos) = AtSelect /\ e'.(conn_) <> None /\
   (e.(conn_) <> None -> e'.(conn_) = e.(conn_)) /\
   frame e.(world) e'.(world)) \/
  (e.(pos) = AtSelect /\ e'.(pos) = AtLoopTop /\
   exists j rest,
     e.(world).(jobs).(items) = j :: rest /\
     frame (add_events [EvRecv j]
              (set_jobs {| items := rest; cap := e.(world).(jobs).(cap);
                           closed := e.(world).(jobs).(closed) |} e.(world)))
           e'.(world)) \/
  (e.(pos) = AtSelect /\ e'.(pos) = AtLoopTop /\
   frame (add_events [EvTick] e.(world)) e'.(world)) \/
  (e.(pos) = AtSelect /\ e'.(pos) = Exited /\
   e.(world).(jobs).(items) = [] /\ e.(world).(jobs).(closed) = true /\
   exists s2,
     flush e.(conn_) config (add_events [EvRecvClosed] e.(world))
       = (Ret e'.(conn_), s2) /\
     run_exit e'.(conn_) s2 = (Ret tt, e'.(world))).
Proof.
  intros Hstep. destruct Hstep as
    [e c r s' Hapi
    |e fuel conn' s' Hpos Hconn
    |e sel s1 conn' s' Hpos Hrecv Hhandle
    |e conn' s' Hpos Hhandle
    |e sel s1 conn' s2 s' Hpos Hrecv Hhandle Hexit].
  - left. exists c. now rewrite Hapi.
  - right; left. cbn [pos conn_ world].
    split; [exact Hpos|]. split; [reflexivity|].
    split; [exact (ensure_conn_some _ _ _ _ _ _ Hconn)|]. split.
    + destruct (conn_ e) as [c|]; [|congruence]. intros _.
      cbn [ensure_conn] in Hconn. unfold ret in Hconn. congruence.
    + pose proof (quiet_ensure_conn fuel config (conn_ e) (world e)) as Hq.
      now rewrite Hconn in Hq.
  - right; right; left. cbn [pos conn_ world].
    split; [exact Hpos|]. split; [reflexivity|].
    unfold recv_jobs in Hrecv.
    destruct (items (jobs (world e))) as [|j rest] eqn:Hitems.
    + destruct (closed (jobs (world e))); [|discriminate].
      injection Hrecv as <- <-. cbn [handle] in Hhandle. unfold bind in Hhandle.
      destruct (flush _ _ _) as [[c|v|] s3]; discriminate.
    + injection Hrecv as <- <-. exists j, rest. split; [reflexivity|].
      pose proof (quiet_handle_tick_or_job (SelJob j) (conn_ e) config
                    (add_events [EvRecv j]
                       (set_jobs {| items := rest; cap := cap (jobs (world e));
                                    closed := closed (jobs (world e)) |} (world e))))
        as Hq.
      now rewrite Hhandle in Hq.
  - right; right; right; left. cbn [pos conn_ world].
    split; [exact Hpos|]. split; [reflexivity|].
    pose proof (quiet_handle_tick_or_job SelTick (conn_ e) config
                  (snd (recv_timer (world e)))) as Hq.
    now rewrite Hhandle in Hq.
  - right; right; right; right. cbn [pos conn_ world].
    split; [exact Hpos|]. split; [reflexivity|].
    unfold recv_jobs in Hrecv.
    destruct (items (jobs (world e))) as [|j rest] eqn:Hitems.
    + destruct (closed (jobs (world e))) eqn:Hc; [|discriminate].
      injection Hrecv as <- <-. split; [reflexivity|]. split; [reflexivity|].
      cbn [handle] in Hhandle. unfold bind in Hhandle.
      destruct (flush _ _ _) as [[c|v|] s3] eqn:Hfl; try discriminate.
      unfold ret in Hhandle. injection Hhandle as <- <-.
      exists s3. split; [reflexivity | exact Hexit].
    + injection Hrecv as <- <-. cbn [handle] in Hhandle. unfold bind in Hhandle.
      destruct (write _ _ _ _) as [[c|v|] s3]; discriminate.
Qed.

Lemma invariant_init (net_Dial : DialFunc) (config0 config : Config)
      (b : backend) (e0 : engine) :
  NewBackendWith net_Dial config0 = Ret (config, b, e0) -> invariant e0.
Proof.
  unfold NewBackendWith.
  destruct (QueueSize (setConfigDefaults net_Dial config0) <? 0); [discriminate|].
  intros Heq. injection Heq as _ _ <-.
  unfold invariant. cbn. repeat split; auto; discriminate.
Qed.

Lemma exit_events_no_queue (conn : option Conn) :
  forallb (fun e => negb (is_queue_event e))
    (EvTimerStop ::
     match conn with Some c => [EvConnClose c.(conn_id)] | None => [] end
     ++ [EvDone]) = true.
Proof. now destruct conn. Qed.

Lemma invariant_step (config : Config) (b : backend) (e e' : engine) :
  invariant e -> step config b e e' -> invariant e'.
Proof.
  intros (Ityped & Iqueue & Iconn & Iexit & Irun) Hstep.
  destruct (step_cases config b e e' Hstep)
    as [(c & ->)
       |[(Hpos & Hpos' & Hconn' & _ & Hfr)
        |[(Hpos & Hpos' & j & rest & Hitems & Hfr)
         |[(Hpos & Hpos' & Hfr)
          |(Hpos & Hpos' & Hitems & Hclosed & s2 & Hflush & Hexit)]]]].
  - destruct (api_effect b c (world e))
      as (A1 & A2 & A3 & A4 & A5 & A6 & _ & A8).
    unfold invariant. cbn [world conn_ pos].
    destruct A8 as [(B1 & B2)|(B0 & j & Hj & B1 & B2)].
    + rewrite B1, B2, A5, A2.
      refine (conj Ityped (conj Iqueue (conj Iconn (conj _ Irun)))).
      intros Hex. destruct (Iexit Hex) as (E1 & E2 & E3). auto.
    + rewrite B1, B2, A5, A2, Iqueue, app_assoc.
      refine (conj _ (conj eq_refl (conj Iconn (conj _ Irun)))).
      * apply Forall_app; split; [exact Ityped | now constructor].
      * intros Hex. destruct (Iexit Hex) as (_ & Hc & _). congruence.
  - destruct Hfr as (F1 & F2 & F3 & F4 & _).
    unfold invariant. rewrite F1, F2, F3, F4.
    refine (conj Ityped (conj Iqueue (conj _ (conj _ _)))).
    + intros _. exact Hconn'.
    + intros Hex. congruence.
    + intros _. apply Irun. congruence.
  - destruct Hfr as (F1 & F2 & F3 & F4 & _).
    cbn [add_events set_jobs jobs join trace] in F1, F2, F3, F4.
    rewrite enqueued_app in F3. rewrite received_app in F4.
    cbn in F3, F4. rewrite app_nil_r in F3.
    unfold invariant. rewrite F1, F2, F3, F4. cbn [items].
    rewrite Hitems in Ityped, Iqueue.
    refine (conj _ (conj _ (conj _ (conj _ _)))).
    + now inversion Ityped.
    + rewrite Iqueue, <- app_assoc. reflexivity.
    + intros Hsel. congruence.
    + intros Hex. congruence.
    + intros _. apply Irun. congruence.
  - destruct Hfr as (F1 & F2 & F3 & F4 & _).
    cbn [add_events jobs join trace] in F1, F2, F3, F4.
    rewrite enqueued_app in F3. rewrite received_app in F4.
    cbn in F3, F4. rewrite app_nil_r in F3, F4.
    unfold invariant. rewrite F1, F2, F3, F4.
    refine (conj Ityped (conj Iqueue (conj _ (conj _ _)))).
    + intros Hsel. congruence.
    + intros Hex. congruence.
    + intros _. apply Irun. congruence.
  - pose proof (quiet_flush (conn_ e) config (add_events [EvRecvClosed] (world e)))
      as Hfr.
    rewrite Hflush in Hfr. cbn [snd] in Hfr.
    destruct Hfr as (F1 & F2 & F3 & F4 & _).
    cbn [add_events jobs join trace] in F1, F2, F3, F4.
    rewrite enqueued_app in F3. rewrite received_app in F4.
    cbn in F3, F4. rewrite app_nil_r in F3, F4.
    destruct (run_exit_eq _ _ _ Hexit) as (Hj & Hw).
    destruct (no_queue_events _ (exit_events_no_queue (conn_ e'))) as (N1 & N2 & _).
    assert (Hjoin : join (world e) = 1) by (apply Irun; congruence).
    unfold invariant. rewrite Hw.
    cbn [add_events set_join jobs join trace].
    rewrite enqueued_app, received_app, N1, N2, !app_nil_r, F1, F2, F3, F4, Hjoin.
    refine (conj Ityped (conj Iqueue (conj _ (conj _ _)))).
    + intros Hsel. congruence.
    + intros _. auto.
    + intros Hne. congruence.
Qed.

Lemma invariant_steps (config : Config) (b : backend) (e0 e : engine) :
  invariant e0 -> steps config b e0 e -> invariant e.
Proof.
  intros H0 Hsteps. induction Hsteps as [e|e1 e2 e3 _ IH Hstep]; [exact H0|].
  eapply invariant_step; [apply IH; exact H0 | exact Hstep].
Qed.

Lemma invariant_reachable (net_Dial : DialFunc) (config0 : Config) (e : engine) :
  reachable net_Dial config0 e -> invariant e.
Proof.
  intros (config & b & e0 & Hnew & Hsteps).
  eapply invariant_steps; [|exact Hsteps].
  eapply invariant_init; exact Hnew.
Qed.






(** ** Types of the queued jobs *)

(** C10: in every state the engine can reach, each queued job carries a
    value of the dynamic type its writer asserts ([Set] and [Add] pair a
    [float64] with [set] and [add], [Observe] pairs a [time.Duration] with
    [observe]), so that with a protocol at hand the writer of the job
    returns and does not panic. *)
Theorem queued_jobs_typed (net_Dial : DialFunc) (config0 : Config) (e : engine) :
  reachable net_Dial config0 e ->
  forall j, In j e.(world).(jobs).(items) ->
    typed j /\
    forall p, exists out, j.(write_) (Some p) j.(metric) j.(value_) = Ret out.
Proof.
  intros Hreach j Hin.
  destruct (invariant_reachable net_Dial config0 e Hreach) as (Ityped & _).
  assert (Hj : typed j) by (rewrite Forall_forall in Ityped; now apply Ityped).
  split; [exact Hj|]. intros p. now apply typed_no_panic.
Qed.

(** ** When the worker connects *)

(** C7, as the code has it: the worker connects at the head of its loop,
    before it waits for anything.  In every reachable state: the worker
    waits in [select] only with a connection, so that the connecting is
    over before a job or a tick is handled; from the head of the loop a
    step is either a producer's call, which leaves the worker there, or
    the worker securing its connection, which takes nothing from the
    queue nor from the timer; and without a connection that step is open
    to the worker as soon as [connect] returns, whether or not anything
    has arrived.  The engine starts at the head of the loop without a
    connection. *)
Theorem connect_precedes_select (net_Dial : DialFunc) (config0 config : Config)
        (b : backend) (e0 e : engine) :
  NewBackendWith net_Dial config0 = Ret (config, b, e0) ->
  steps config b e0 e ->
  (e0.(pos) = AtLoopTop /\ e0.(conn_) = None /\ e0.(world).(trace) = []) /\
  (e.(pos) = AtSelect -> e.(conn_) <> None) /\
  (e.(pos) = AtLoopTop ->
   forall e', step config b e e' ->
     (e'.(pos) = AtLoopTop /\ e'.(conn_) = e.(conn_) /\
      calls is_arrival e'.(world).(trace) = calls is_arrival e.(world).(trace)) \/
     (e'.(pos) = AtSelect /\ e'.(conn_) <> None /\
      e'.(world).(jobs) = e.(world).(jobs) /\
      calls is_arrival e'.(world).(trace) = calls is_arrival e.(world).(trace))) /\
  (e.(pos) = AtLoopTop -> e.(conn_) = None ->
   forall fuel c s',
     connect fuel config e.(world) = (Ret c, s') ->
     step config b e {| world := s'; conn_ := Some c; pos := AtSelect |}).
Proof.
  intros Hnew Hsteps.
  pose proof (invariant_steps config b e0 e
                (invariant_init net_Dial config0 config b e0 Hnew) Hsteps)
    as (_ & _ & Iconn & _ & _).
  split; [|split; [exact Iconn|split]].
  - unfold NewBackendWith in Hnew.
    destruct (QueueSize (setConfigDefaults net_Dial config0) <? 0); [discriminate|].
    injection Hnew as _ _ <-. cbn. auto.
  - intros Hpos e' Hstep.
    destruct (step_cases config b e e' Hstep)
      as [(c & ->)
         |[(_ & Hpos' & Hconn' & _ & Hfr)
          |[(Hp & _)|[(Hp & _)|(Hp & _)]]]]; try congruence.
    + left. cbn [pos conn_ world].
      destruct (api_effect b c (world e)) as (_ & _ & _ & _ & _ & A6 & _).
      auto.
    + right. destruct Hfr as (F1 & _ & _ & _ & F5). auto.
  - intros Hpos Hnone fuel c s' Hconn.
    apply step_connect with (fuel := fuel); [exact Hpos|].
    rewrite Hnone. cbn [ensure_conn]. unfold bind. now rewrite Hconn.
Qed.

(** ** Closing *)


(** ** The loop of [run] and the steps of the engine *)

Lemma steps_trans (config : Config) (b : backend) (e1 e2 e3 : engine) :
  steps config b e1 e2 -> steps config b e2 e3 -> steps config b e1 e3.
Proof.
  intros H12 H23. induction H23 as [e|e2 e3 e4 _ IH Hstep]; [exact H12|].
  eapply steps_step; [apply IH; exact H12 | exact Hstep].
Qed.

Lemma handle_flag (sel : selected) (conn conn' : option Conn) (config : Config)
      (x : bool) (s s' : state) :
  handle sel conn config s = (Ret (conn', x), s') ->
  x = match sel with SelClosed => true | _ => false end.
Proof.
  destruct sel; cbn [handle]; unfold bind, ret;
    [destruct (write conn j config s) as [[c|v|] s1]
    |destruct (flush conn config s) as [[c|v|] s1]
    |destruct (flush conn config s) as [[c|v|] s1]];
    intros Heq; try discriminate; now injection Heq as _ <- _.
Qed.

(** A run of the worker alone that returns is a walk of the engine from
    the head of the loop to the exit. *)
Lemma run_loop_steps (config : Config) (b : backend) (tick : nat -> bool)
      (fuel : nat) :
  forall (conn conn' : option Conn) (s s2 s' : state),
    run_loop fuel tick config conn s = (Ret conn', s2) ->
    run_exit conn' s2 = (Ret tt, s') ->
    steps config b
      {| world := s; conn_ := conn; pos := AtLoopTop |}
      {| world := s'; conn_ := conn'; pos := Exited |}.
Proof.
  induction fuel as [|fuel IH]; intros conn conn' s s2 s' Hrun Hexit;
    [discriminate|].
  cbn [run_loop] in Hrun. unfold bind at 1 in Hrun.
  destruct (ensure_conn (S fuel) config conn s) as [[c1|v|] s1] eqn:Hconn;
    try discriminate.
  assert (Hstep1 : step config b
                     {| world := s; conn_ := conn; pos := AtLoopTop |}
                     {| world := s1; conn_ := c1; pos := AtSelect |}).
  { now apply step_connect with (fuel := S fuel). }
  unfold bind at 1 in Hrun.
  destruct (select tick s1) as [[sel|v|] s1'] eqn:Hsel; try discriminate.
  unfold bind at 1 in Hrun.
  destruct (handle sel c1 config s1') as [[[c2 x]|v|] s3] eqn:Hhandle;
    try discriminate.
  cbn [fst snd] in Hrun.
  pose proof (handle_flag sel c1 c2 config x s1' s3 Hhandle) as Hx.
  assert (Hcases : (sel = SelTick /\ s1' = snd (recv_timer s1)) \/
                   recv_jobs s1 = Some (sel, s1')).
  { unfold select in Hsel.
    destruct (tick _); [injection Hsel as <- <-; now left|].
    destruct (recv_jobs s1) as [[sel0 s0]|].
    - injection Hsel as <- <-. now right.
    - injection Hsel as <- <-. now left. }
  destruct Hcases as [(-> & ->)|Hrecv].
  - subst x. eapply steps_trans; [|exact (IH _ _ _ _ _ Hrun Hexit)].
    eapply steps_step; [eapply steps_step; [apply steps_refl | exact Hstep1]|].
    now apply (step_timer config b {| world := s1; conn_ := c1; pos := AtSelect |}).
  - destruct sel as [j| |]; subst x.
    + eapply steps_trans; [|exact (IH _ _ _ _ _ Hrun Hexit)].
      eapply steps_step; [eapply steps_step; [apply steps_refl | exact Hstep1]|].
      now apply (step_jobs config b {| world := s1; conn_ := c1; pos := AtSelect |}
                   (SelJob j) s1').
    + unfold ret in Hrun. injection Hrun as <- <-.
      eapply steps_step; [eapply steps_step; [apply steps_refl | exact Hstep1]|].
      now apply (step_return config b {| world := s1; conn_ := c1; pos := AtSelect |}
                   SelClosed s1' c2 s3).
    + unfold recv_jobs in Hrecv.
      destruct (items (jobs s1)); [destruct (closed (jobs s1))|]; discriminate.
Qed.


(** * Concrete runs *)

(** The constructor on [sample_config], and the short life of its engine. *)
Lemma sample_new :
  NewBackendWith sample_dial sample_config
  = Ret (sample_config, sample_backend, sample_start).
Proof. reflexivity. Qed.

Lemma sample_run : steps sample_config sample_backend sample_start sample_end.
Proof.
  eapply steps_step.
  - eapply steps_step.
    + eapply steps_step.
      * eapply steps_step.
        -- eapply steps_step.
           ++ eapply steps_step.
              ** apply steps_refl.
              ** eapply step_api with (c := CallSet sample_metric 1). reflexivity.
           ++ eapply step_api with (c := CallClose). reflexivity.
        -- eapply step_connect with (fuel := 1%nat); reflexivity.
      * eapply step_jobs; reflexivity.
    + eapply step_connect with (fuel := 0%nat); reflexivity.
  - eapply step_return; reflexivity.
Qed.

(** The short life of the sample engine, as [run] lives it once the job
    is queued and the queue closed. *)
Lemma sample_run_alone :
  run 2 (fun _ => false) sample_config
    (snd (api sample_backend CallClose
            (snd (api sample_backend (CallSet sample_metric 1) empty_state))))
  = (Ret tt, sample_end.(world)).
Proof. reflexivity. Qed.

(** C1 at work: two of three buffered bytes are flushed to a connection
    that takes them. *)
Lemma flushN_outcomes_witness :
  sample_config.(Fail) = Some quiet_fail /\
  0 <= 2 <= Z.of_nat (List.length buffered_state.(buf)) /\
  flushN (Some good_conn) sample_config 2 buffered_state =
  (Ret (Some good_conn),
   add_events [EvSetWriteDeadline 1 (1 * Second);
               EvWrite 1 ["a"%byte; "b"%byte]]
     (set_buf ["c"%byte] buffered_state)).
Proof.
  assert (Hn : 0 <= 2 <= Z.of_nat (List.length buffered_state.(buf)))
    by (cbn; lia).
  split; [reflexivity|]. split; [exact Hn|].
  destruct (flushN_outcomes sample_config quiet_fail 2 buffered_state eq_refl Hn)
    as (_ & Hconn & _).
  exact (proj2 (proj2 (Hconn good_conn)) eq_refl eq_refl).
Defined.

(** C1 as claimed fails: when the write fails the bytes handed to the
    connection are gone from the buffer, though the claim keeps them at
    its front. *)
Lemma flushN_write_error_drops_bytes :
  let r := flushN (Some broken_conn) sample_config 3 buffered_state in
  fst r = Ret None /\
  (snd r).(trace) =
    [EvSetWriteDeadline 3 (1 * Second);
     EvWrite 3 ["a"%byte; "b"%byte; "c"%byte];
     EvConnClose 3; EvFail "broken pipe"] /\
  (snd r).(buf) = [] /\
  ~ (exists rest, (snd r).(buf) = firstn 3 buffered_state.(buf) ++ rest).
Proof.
  cbv zeta. split; [reflexivity|]. split; [reflexivity|]. split; [reflexivity|].
  intros (rest & H). discriminate H.
Qed.

(** C2 at work: the buffer holds three bytes, the threshold is four, the
    job adds two: the three older bytes are flushed and the job's two
    stay. *)
Lemma write_flush_rule_witness :
  add_job.(write_) sample_config.(Protocol_) add_job.(metric) add_job.(value_)
    = Ret (["a"%byte; "a"%byte], None) /\
  write (Some good_conn) add_job sample_config buffered_state =
  (Ret (Some good_conn),
   add_events [EvSetWriteDeadline 1 (1 * Second);
               EvWrite 1 ["a"%byte; "b"%byte; "c"%byte]]
     (set_buf ["a"%byte; "a"%byte] buffered_state)).
Proof.
  split; [reflexivity|].
  destruct (write_flush_rule (Some good_conn) add_job sample_config
              buffered_state ["a"%byte; "a"%byte] eq_refl)
    as (_ & _ & _ & Hconn).
  refine (proj2 (Hconn good_conn eq_refl eq_refl (fun _ => eq_refl) _) _).
  - cbn. lia.
  - cbn. lia.
Defined.

(** C8 at work: the codec rejects the metric after one byte. *)
Lemma write_encode_error_witness :
  sample_config.(Fail) = Some quiet_fail /\
  bad_job.(write_) sample_config.(Protocol_) bad_job.(metric) bad_job.(value_)
    = Ret (["x"%byte], Some "bad metric") /\
  write (Some good_conn) bad_job sample_config buffered_state =
  (Ret (Some good_conn),
   add_events [EvFail "bad metric"]
     (set_buf ["a"%byte; "b"%byte; "c"%byte; "x"%byte] buffered_state)).
Proof.
  split; [reflexivity|]. split; [reflexivity|].
  exact (proj1 (write_encode_error (Some good_conn) bad_job sample_config
                  quiet_fail buffered_state ["x"%byte] "bad metric"
                  eq_refl eq_refl)).
Defined.

(** C6 at work: the callback panics with [boom]. *)
Lemma callback_panic_isolated_witness :
  panicking_config.(Fail) = Some panicking_fail /\
  (panicking_fail "broken pipe" 0%nat).(cb_panic) = Some "boom" /\
  handleError "broken pipe" panicking_config empty_state =
  (Ret tt,
   add_events [EvFail "broken pipe"; EvStderr (panic_line "boom"); EvStack]
     empty_state).
Proof.
  split; [reflexivity|]. split; [reflexivity|].
  exact (proj1 (callback_panic_isolated panicking_config panicking_fail
                  "broken pipe" "boom" empty_state eq_refl eq_refl)).
Defined.

(** C3 at work: three refusals, with delays of 100ms, 200ms and then the
    maximum of 250ms. *)
Lemma connect_backoff_witness :
  flaky_config.(Fail) = Some quiet_fail /\
  flaky_config.(Dial) = Some flaky_dial /\
  0 <= flaky_config.(RetryAfterMin) <= flaky_config.(RetryAfterMax) /\
  flaky_config.(RetryAfterMax) <= 2 ^ 62 - 1 /\
  connect 4 flaky_config empty_state =
  (Ret good_conn,
   add_events
     [EvDial "tcp" "localhost:8125"; EvFail "connection refused";
      EvSleep 100000000;
      EvDial "tcp" "localhost:8125"; EvFail "connection refused";
      EvSleep 200000000;
      EvDial "tcp" "localhost:8125"; EvFail "connection refused";
      EvSleep 250000000;
      EvDial "tcp" "localhost:8125"] empty_state).
Proof.
  assert (Hmin : 0 <= flaky_config.(RetryAfterMin) <= flaky_config.(RetryAfterMax))
    by (cbn; lia).
  assert (Hmax : flaky_config.(RetryAfterMax) <= 2 ^ 62 - 1) by (cbn; lia).
  split; [reflexivity|]. split; [reflexivity|].
  split; [exact Hmin|]. split; [exact Hmax|].
  refine (proj1 (connect_backoff flaky_config quiet_fail flaky_dial empty_state
                   eq_refl eq_refl Hmin Hmax)
            3%nat (fun _ => "connection refused") good_conn 4%nat _ eq_refl _).
  - intros i Hi. destruct i as [|[|[|i]]]; [reflexivity..|lia].
  - lia.
Defined.

(** C3 as claimed fails.  With a minimum of 20s above a maximum of 15s the
    first sleep is the minimum, not [min (20s * 2^0) 15s]; and with both at
    [2^62] nanoseconds the doubling wraps around, so that the second sleep
    is negative. *)
Lemma connect_delay_not_doubled :
  (exists s',
      connect 4 inverted_config empty_state = (Ret good_conn, s') /\
      s'.(trace) =
        [EvDial "tcp" "localhost:8125"; EvFail "connection refused";
         EvSleep (20 * Second);
         EvDial "tcp" "localhost:8125"; EvFail "connection refused";
         EvSleep (15 * Second);
         EvDial "tcp" "localhost:8125"; EvFail "connection refused";
         EvSleep (15 * Second);
         EvDial "tcp" "localhost:8125"] /\
      doubled_delay inverted_config 0 = 15 * Second) /\
  (exists s',
      connect 4 huge_config empty_state = (Ret good_conn, s') /\
      s'.(trace) =
        [EvDial "tcp" "localhost:8125"; EvFail "connection refused";
         EvSleep (2 ^ 62);
         EvDial "tcp" "localhost:8125"; EvFail "connection refused";
         EvSleep (- 2 ^ 63);
         EvDial "tcp" "localhost:8125"; EvFail "connection refused";
         EvSleep 0;
         EvDial "tcp" "localhost:8125"] /\
      doubled_delay huge_config 1 = 2 ^ 62).
Proof.
  split; eexists; (split; [reflexivity|]); split; reflexivity.
Qed.

(** C10 at work: the job that [Set] queued. *)
Lemma queued_jobs_typed_witness :
  reachable sample_dial sample_config
    {| world := snd (api sample_backend (CallSet sample_metric 1) empty_state);
       conn_ := None; pos := AtLoopTop |} /\
  typed set_job /\
  forall p, exists out, set_job.(write_) (Some p) set_job.(metric) set_job.(value_)
                        = Ret out.
Proof.
  assert (Hreach :
    reachable sample_dial sample_config
      {| world := snd (api sample_backend (CallSet sample_metric 1) empty_state);
         conn_ := None; pos := AtLoopTop |}).
  { exists sample_config, sample_backend, sample_start.
    split; [reflexivity|].
    eapply steps_step; [apply steps_refl|].
    eapply step_api with (c := CallSet sample_metric 1) (e := sample_start).
    reflexivity. }
  split; [exact Hreach|].
  exact (queued_jobs_typed sample_dial sample_config _ Hreach set_job
           (or_introl eq_refl)).
Defined.

(** C7 at work: from the start the worker may connect at once. *)
Lemma connect_precedes_select_witness :
  NewBackendWith sample_dial sample_config
    = Ret (sample_config, sample_backend, sample_start) /\
  steps sample_config sample_backend sample_start sample_start /\
  step sample_config sample_backend sample_start
    {| world := add_events [EvDial "tcp" "localhost:8125"] empty_state;
       conn_ := Some good_conn; pos := AtSelect |}.
Proof.
  split; [reflexivity|]. split; [apply steps_refl|].
  exact (proj2 (proj2 (proj2
           (connect_precedes_select sample_dial sample_config sample_config
              sample_backend sample_start sample_start eq_refl
              (steps_refl _ _ _))))
           eq_refl eq_refl 1%nat good_conn _ eq_refl).
Defined.

(** C7 as claimed fails: the engine has just been made, no job has been
    submitted and the timer has not fired, and the worker dials. *)
Lemma worker_dials_before_any_event :
  exists e1,
    NewBackendWith sample_dial sample_config
      = Ret (sample_config, sample_backend, sample_start) /\
    step sample_config sample_backend sample_start e1 /\
    e1.(world).(trace) = [EvDial "tcp" "localhost:8125"] /\
    enqueued e1.(world).(trace) = [] /\
    calls is_arrival e1.(world).(trace) = 0%nat.
Proof.
  exists {| world := add_events [EvDial "tcp" "localhost:8125"] empty_state;
            conn_ := Some good_conn; pos := AtSelect |}.
  split; [reflexivity|]. split; [|repeat split].
  apply step_connect with (fuel := 1%nat); reflexivity.
Qed.


(** * Further properties of the code *)

(** ** The configuration and the constructor *)

(** X1: a configuration that went through [setConfigDefaults] has no zero
    among its six numeric fields and has a dialer and a callback, and
    going through [setConfigDefaults] again does not change it. *)
Theorem setConfigDefaults_idempotent (net_Dial : DialFunc) (config : Config) :
  let c := setConfigDefaults net_Dial config in
  setConfigDefaults net_Dial c = c /\
  c.(BufferSize) <> 0 /\ c.(QueueSize) <> 0 /\
  c.(RetryAfterMin) <> 0 /\ c.(RetryAfterMax) <> 0 /\
  c.(FlushTimeout) <> 0 /\ c.(WriteTimeout) <> 0 /\
  c.(Dial) <> None /\ c.(Fail) <> None.
Proof.
  cbv zeta. rewrite !setConfigDefaults_closed_form.
  destruct config as [p nw ad bs qs rmin rmax ft wt d f].
  unfold defaults_closed_form; cbn [BufferSize QueueSize RetryAfterMin
    RetryAfterMax FlushTimeout WriteTimeout Dial Fail Protocol_ Network Address].
  split.
  - destruct (Z.eqb_spec bs 0), (Z.eqb_spec qs 0), (Z.eqb_spec rmin 0),
      (Z.eqb_spec rmax 0), (Z.eqb_spec ft 0), (Z.eqb_spec wt 0);
      repeat match goal with
             | |- context [?x =? 0] =>
               let H := fresh in
               destruct (Z.eqb_spec x 0) as [H|H]; [try discriminate H; try contradiction|]
             end; reflexivity.
  - destruct (Z.eqb_spec bs 0), (Z.eqb_spec qs 0), (Z.eqb_spec rmin 0),
      (Z.eqb_spec rmax 0), (Z.eqb_spec ft 0), (Z.eqb_spec wt 0);
      repeat split; try assumption; try discriminate.
Qed.


(** X11: with no callback configured, an error that the worker reports is
    printed on [os.Stderr] as [stats: ] followed by the error and a
    newline, and nothing else happens. *)
Theorem default_failure_report (net_Dial : DialFunc) (config0 : Config)
        (err : error) (s : state) :
  config0.(Fail) = None ->
  handleError err (setConfigDefaults net_Dial config0) s =
  (Ret tt,
   add_events
     [EvFail err;
      EvStderr (String.append "stats: " (String.append err newline))] s).
Proof.
  intros Hnil.
  rewrite handleError_some with (f := makeFailFunc); [reflexivity|].
  rewrite setConfigDefaults_closed_form. unfold defaults_closed_form.
  cbn [Fail]. now rewrite Hnil.
Qed.

(** ** Delays of [connect] *)

Lemma sleeps_app (t1 t2 : list event) : sleeps (t1 ++ t2) = sleeps t1 ++ sleeps t2.
Proof.
  induction t1 as [|e t1 IH]; [reflexivity|].
  destruct e; cbn; now rewrite ?IH.
Qed.

Lemma sleeps_reported (config : Config) (err : error) (n : nat) :
  sleeps (reported config err n) = [].
Proof.
  unfold reported, report_events. destruct (Fail config) as [f|]; [|reflexivity].
  cbn [sleeps]. rewrite sleeps_app.
  replace (sleeps (map EvStderr (cb_stderr (f err n)))) with (@nil Duration).
  - now destruct (cb_panic (f err n)).
  - induction (cb_stderr (f err n)); [reflexivity | exact IHl].
Qed.

Lemma backoff_le_max (d max : Duration) : backoff d max <= max.
Proof.
  unfold backoff. destruct (Z.gtb_spec (wrap64 (d + d)) max); lia.
Qed.

(** What [dial] adds to the trace has no sleep in it. *)
Lemma dial_no_sleep (config : Config) (s : state) :
  exists es, (snd (dial config s)).(trace) = s.(trace) ++ es /\ sleeps es = [].
Proof.
  unfold dial, bind, call_Dial. destruct (Dial config) as [d|].
  - destruct (d _ _ _) as [conn [err|]]; cbn [snd fst].
    + rewrite handleError_eq. unfold ret. cbn [snd trace add_events].
      rewrite <- app_assoc. eexists. split; [reflexivity|].
      cbn [app sleeps]. apply sleeps_reported.
    + unfold ret. cbn. eexists. split; reflexivity.
  - exists []. cbn. now rewrite app_nil_r.
Qed.

Lemma connect_loop_sleeps (config : Config) (fuel : nat) :
  forall (r : Duration) (s : state),
  exists es,
    (snd (connect_loop fuel config r s)).(trace) = s.(trace) ++ es /\
    (sleeps es = [] \/
     exists rest, sleeps es = r :: rest /\
                  Forall (fun d => d <= config.(RetryAfterMax)) rest).
Proof.
  induction fuel as [|fuel IH]; intros r s.
  - exists []. cbn. rewrite app_nil_r. auto.
  - cbn [connect_loop]. unfold bind at 1.
    destruct (dial_no_sleep config s) as (es1 & Ht1 & Hs1).
    destruct (dial config s) as [[[c|]|v|] s1]; cbn [snd] in Ht1.
    + exists es1. unfold ret. cbn [snd]. auto.
    + unfold bind at 1. unfold sleep, bind, emit, ret.
      destruct (IH (backoff r (RetryAfterMax config)) (add_events [EvSleep r] s1))
        as (es2 & Ht2 & Hs2).
      exists (es1 ++ EvSleep r :: es2). split.
      * rewrite Ht2. cbn [trace add_events]. rewrite Ht1, <- !app_assoc. reflexivity.
      * right. rewrite sleeps_app, Hs1. cbn [app sleeps].
        destruct Hs2 as [Hs2|(rest & Hs2 & Hall)].
        -- exists []. rewrite Hs2. split; [reflexivity | constructor].
        -- exists (backoff r (RetryAfterMax config) :: rest). rewrite Hs2.
           split; [reflexivity|]. constructor; [apply backoff_le_max | exact Hall].
    + exists es1. cbn [snd]. auto.
    + exists es1. cbn [snd]. auto.
Qed.

(** X6: whatever the configuration, the dialer and the fuel, the delays
    that one call of [connect] sleeps are first [RetryAfterMin] and then
    only delays that do not exceed [RetryAfterMax]. *)
Theorem connect_sleeps_bounded (fuel : nat) (config : Config) (s : state) :
  exists es,
    (snd (connect fuel config s)).(trace) = s.(trace) ++ es /\
    (sleeps es = [] \/
     exists rest, sleeps es = config.(RetryAfterMin) :: rest /\
                  Forall (fun d => d <= config.(RetryAfterMax)) rest).
Proof.
  unfold connect. apply connect_loop_sleeps.
Qed.

(** ** Submissions with a callback that returns *)

(** X10: with a callback that returns, a submission through the backend
    always returns, touches neither the buffer nor the wait group, and
    does one of three things.  On an open queue with room the job goes to
    the tail of the queue and nothing is reported; on an open queue at
    capacity the queue is unchanged and the callback is called once, with
    the full-queue error naming the metric; on a closed queue the queue is
    unchanged and the callback is called once, with the closed-queue
    error naming the metric. *)
Theorem submission_outcomes (f : FailFunc) (m : Metric) (v : value)
        (w : writer) (s : state) :
  (forall e n, (f e n).(cb_panic) = None) ->
  let j := {| metric := m; value_ := v; write_ := w |} in
  let r := backend_enqueue {| fail := Some f |} m v w s in
  fst r = Ret tt /\
  (snd r).(buf) = s.(buf) /\ (snd r).(join) = s.(join) /\
  (s.(jobs).(closed) = false ->
   Z.of_nat (List.length s.(jobs).(items)) < s.(jobs).(cap) ->
   (snd r).(jobs) = {| items := s.(jobs).(items) ++ [j];
                       cap := s.(jobs).(cap); closed := false |} /\
   failures (snd r).(trace) = failures s.(trace)) /\
  (s.(jobs).(closed) = false ->
   s.(jobs).(cap) <= Z.of_nat (List.length s.(jobs).(items)) ->
   (snd r).(jobs) = s.(jobs) /\
   failures (snd r).(trace) =
     failures s.(trace) ++
     [String.append "discarding "
        (String.append m.(Name) " because the metric queue is full")]) /\
  (s.(jobs).(closed) = true ->
   (snd r).(jobs) = s.(jobs) /\
   failures (snd r).(trace) =
     failures s.(trace) ++
     [String.append "discarding "
        (String.append m.(Name) " because the metric queue was closed")]).
Proof.
  intros Hok j r. unfold r, backend_enqueue. cbn [fail]. fold j.
  assert (Hstderr : forall l, failures (map EvStderr l) = [])
    by apply failures_stderr.
  destruct (closed (jobs s)) eqn:Hc.
  - rewrite (enqueue_closed j (Some f) s Hc), call_Fail_some, Hok.
    cbn [fst snd add_events buf join jobs trace].
    rewrite failures_app. cbn [failures]. rewrite Hstderr.
    repeat split; try discriminate; reflexivity.
  - destruct (Z.ltb_spec (Z.of_nat (List.length (items (jobs s)))) (cap (jobs s)))
      as [Hlt|Hge].
    + rewrite (enqueue_accepted j (Some f) s Hc Hlt).
      cbn [fst snd add_events set_jobs buf join jobs trace].
      rewrite failures_app. cbn [failures]. rewrite app_nil_r.
      repeat split; try discriminate; try reflexivity; lia.
    + rewrite (enqueue_full j f s Hc Hge). cbv zeta. rewrite Hok.
      cbn [fst snd add_events buf join jobs trace].
      rewrite failures_app. cbn [failures]. rewrite Hstderr.
      repeat split; try discriminate; try reflexivity; lia.
Qed.

(** ** The periodic flush *)

(** X7: when the timer fires while the worker waits with a connection that
    takes the deadline and the write, the whole buffer is written to that
    connection in one write and the buffer is left empty, whatever its
    length; the worker keeps the connection and goes back to the head of
    its loop. *)
Theorem timer_flush_empties_buffer (config : Config) (b : backend)
        (e : engine) (c : Conn) :
  e.(pos) = AtSelect ->
  e.(conn_) = Some c ->
  c.(conn_SetWriteDeadline)
    (calls (is_deadline_of c.(conn_id)) e.(world).(trace)) = None ->
  c.(conn_Write) e.(world).(buf)
    (calls (is_write_of c.(conn_id)) e.(world).(trace)) = None ->
  step config b e
    {| world :=
         add_events
           [EvTick;
            EvSetWriteDeadline c.(conn_id) config.(WriteTimeout);
            EvWrite c.(conn_id) e.(world).(buf)]
           (set_buf [] e.(world));
       conn_ := Some c;
       pos := AtLoopTop |}.
Proof.
  intros Hpos Hconn Hdl Hwr.
  apply step_timer; [exact Hpos|].
  rewrite Hconn. cbn [handle]. unfold bind at 1. rewrite flush_eq.
  unfold recv_timer. cbn [snd add_events buf].
  rewrite flushN_some_eq by lia. cbv zeta.
  cbn [add_events trace buf].
  rewrite !calls_app. cbn [calls filter is_deadline_of is_write_of List.length].
  rewrite !Nat.add_0_r, Hdl.
  rewrite Nat2Z.id, firstn_all, skipn_all, Hwr.
  unfold ret. f_equal.
  unfold add_events, set_buf; cbn. now rewrite <- app_assoc.
Qed.

(** ** Invariants of the queue *)

(** X4: in every state the engine can reach, the jobs that entered the
    queue are, in the order of entry, the jobs the worker has received
    followed by the jobs still queued: the queue hands the jobs over in
    the order it took them, each once, and loses none. *)
Theorem queue_is_fifo (net_Dial : DialFunc) (config0 : Config) (e : engine) :
  reachable net_Dial config0 e ->
  enqueued e.(world).(trace) =
    received e.(world).(trace) ++ e.(world).(jobs).(items).
Proof.
  intros Hreach.
  now destruct (invariant_reachable net_Dial config0 e Hreach) as (_ & Iqueue & _).
Qed.

(** A call of [enqueue] keeps the capacity and does not fill the queue
    beyond it. *)
Lemma enqueue_bound (j : job) (fl : option FailFunc) (s : state) :
  (snd (enqueue j fl s)).(jobs).(cap) = s.(jobs).(cap) /\
  (Z.of_nat (List.length s.(jobs).(items)) <= s.(jobs).(cap) ->
   Z.of_nat (List.length (snd (enqueue j fl s)).(jobs).(items)) <= s.(jobs).(cap)).
Proof.
  destruct (closed (jobs s)) eqn:Hc.
  - rewrite (enqueue_closed j fl s Hc).
    destruct (call_Fail_events fl (queue_closed_error j) s) as (es & -> & _).
    cbn [add_events jobs]. auto.
  - destruct (Z.ltb_spec (Z.of_nat (List.length (items (jobs s)))) (cap (jobs s)))
      as [Hlt|Hge].
    + rewrite (enqueue_accepted j fl s Hc Hlt).
      cbn [snd add_events set_jobs jobs cap items].
      rewrite length_app. cbn [List.length]. split; [reflexivity | lia].
    + destruct fl as [f|].
      * rewrite (enqueue_full j f s Hc Hge). cbv zeta.
        destruct (cb_panic _).
        -- destruct (call_Fail_events (Some f) (queue_closed_error j)
                       (add_events
                          (EvFail (queue_full_error j)
                           :: map EvStderr
                                (cb_stderr (f (queue_full_error j)
                                              (calls is_fail (trace s))))) s))
             as (es & -> & _).
           cbn [add_events jobs]. auto.
        -- cbn [snd add_events jobs]. auto.
      * unfold enqueue, deferred, bind, send_or_default. rewrite Hc.
        destruct (Z.ltb_spec (Z.of_nat (List.length (items (jobs s)))) (cap (jobs s)));
          [lia|].
        cbn. auto.
Qed.

Lemma api_bound (b : backend) (c : api_call) (s : state) :
  (snd (api b c s)).(jobs).(cap) = s.(jobs).(cap) /\
  (Z.of_nat (List.length s.(jobs).(items)) <= s.(jobs).(cap) ->
   Z.of_nat (List.length (snd (api b c s)).(jobs).(items)) <= s.(jobs).(cap)).
Proof.
  destruct c as [m v|m v|m v|]; cbn [api];
    try (unfold Set_, Add, Observe, backend_enqueue; apply enqueue_bound).
  rewrite Close_signal_eq. cbn [snd].
  destruct (closed (jobs s)); cbn; auto.
Qed.

Lemma bound_step (config : Config) (b : backend) (e e' : engine) :
  step config b e e' ->
  e'.(world).(jobs).(cap) = e.(world).(jobs).(cap) /\
  (Z.of_nat (List.length e.(world).(jobs).(items)) <= e.(world).(jobs).(cap) ->
   Z.of_nat (List.length e'.(world).(jobs).(items)) <= e.(world).(jobs).(cap)).
Proof.
  intros Hstep.
  destruct (step_cases config b e e' Hstep)
    as [(c & ->)
       |[(_ & _ & _ & _ & Hfr)
        |[(_ & _ & j & rest & Hitems & Hfr)
         |[(_ & _ & Hfr)
          |(_ & _ & _ & _ & s2 & Hflush & Hexit)]]]].
  - cbn [world]. apply api_bound.
  - destruct Hfr as (F1 & _). rewrite F1. auto.
  - destruct Hfr as (F1 & _). cbn [add_events set_jobs jobs] in F1.
    rewrite F1, Hitems. cbn [cap items List.length]. split; [reflexivity | lia].
  - destruct Hfr as (F1 & _). cbn [add_events jobs] in F1. rewrite F1. auto.
  - pose proof (quiet_flush (conn_ e) config (add_events [EvRecvClosed] (world e)))
      as Hfr.
    rewrite Hflush in Hfr. destruct Hfr as (F1 & _).
    cbn [snd add_events jobs] in F1.
    destruct (run_exit_eq _ _ _ Hexit) as (_ & ->).
    cbn [add_events set_join jobs]. rewrite F1. auto.
Qed.

(** The queue that [NewBackendWith] makes is empty, of the configured
    capacity. *)
Lemma NewBackendWith_queue (net_Dial : DialFunc) (config0 config : Config)
      (b : backend) (e0 : engine) :
  NewBackendWith net_Dial config0 = Ret (config, b, e0) ->
  e0.(world).(jobs).(cap) =
    (if config0.(QueueSize) =? 0 then 1000 else config0.(QueueSize)) /\
  Z.of_nat (List.length e0.(world).(jobs).(items)) <= e0.(world).(jobs).(cap).
Proof.
  unfold NewBackendWith. cbv zeta.
  rewrite !setConfigDefaults_closed_form.
  unfold defaults_closed_form; cbn [QueueSize Fail].
  destruct (Z.eqb_spec (QueueSize config0) 0) as [Hz|Hnz].
  - cbn. intros Heq. injection Heq as _ _ <-. cbn. split; [reflexivity | lia].
  - destruct (Z.ltb_spec (QueueSize config0) 0); [discriminate|].
    intros Heq. injection Heq as _ _ <-. cbn. split; [reflexivity | lia].
Qed.

(** X3: in every state the engine can reach, the queue holds at most as
    many jobs as its capacity, which is the configured queue size, or 1000
    when that is zero. *)
Theorem queue_within_capacity (net_Dial : DialFunc) (config0 config : Config)
        (b : backend) (e0 e : engine) :
  NewBackendWith net_Dial config0 = Ret (config, b, e0) ->
  steps config b e0 e ->
  e.(world).(jobs).(cap) =
    (if config0.(QueueSize) =? 0 then 1000 else config0.(QueueSize)) /\
  Z.of_nat (List.length e.(world).(jobs).(items)) <= e.(world).(jobs).(cap).
Proof.
  intros Hnew Hsteps.
  assert (H0 : e0.(world).(jobs).(cap) =
               (if config0.(QueueSize) =? 0 then 1000 else config0.(QueueSize)) /\
               Z.of_nat (List.length e0.(world).(jobs).(items))
               <= e0.(world).(jobs).(cap)).
  { exact (NewBackendWith_queue net_Dial config0 config b e0 Hnew). }
  induction Hsteps as [e|e1 e2 e3 _ IH Hstep]; [exact H0|].
  destruct (IH Hnew H0) as (Hcap & Hlen).
  destruct (bound_step config b e2 e3 Hstep) as (Hcap' & Hlen').
  split; [congruence|]. rewrite Hcap'. now apply Hlen'.
Qed.

(** X9: once the worker waits on a closed and empty queue, its way out is
    open and cannot fail: the final flush returns, the wait group is
    signalled without going negative, and [Close] may return. *)
Theorem exit_is_open (net_Dial : DialFunc) (config0 config : Config)
        (b : backend) (e0 e : engine) :
  NewBackendWith net_Dial config0 = Ret (config, b, e0) ->
  steps config b e0 e ->
  e.(pos) = AtSelect ->
  e.(world).(jobs).(closed) = true ->
  e.(world).(jobs).(items) = [] ->
  exists e',
    step config b e e' /\ e'.(pos) = Exited /\
    Close_may_return e'.(world) /\
    e'.(world).(jobs) = e.(world).(jobs).
Proof.
  intros Hnew Hsteps Hpos Hclosed Hitems.
  pose proof (invariant_steps config b e0 e
                (invariant_init net_Dial config0 config b e0 Hnew) Hsteps)
    as (_ & _ & _ & _ & Irun).
  assert (Hjoin : join (world e) = 1) by (apply Irun; congruence).
  set (s1 := add_events [EvRecvClosed] (world e)).
  destruct (flushN_returns (conn_ e) config (Z.of_nat (List.length (buf s1))) s1)
    as (conn' & s2 & Hfl & _ & Hjobs & Hj); [lia|].
  set (s' := add_events
               (EvTimerStop ::
                match conn' with Some c => [EvConnClose (conn_id c)] | None => [] end
                ++ [EvDone])
               (set_join 0 s2)).
  exists {| world := s'; conn_ := conn'; pos := Exited |}.
  split; [|split; [reflexivity|split]].
  - eapply step_return with (sel := SelClosed) (s1 := s1) (s2 := s2).
    + exact Hpos.
    + unfold recv_jobs. now rewrite Hitems, Hclosed.
    + cbn [handle]. unfold bind. now rewrite flush_eq, Hfl.
    + unfold run_exit, bind, emit, join_Done.
      assert (Hj2 : join s2 = 1) by (rewrite Hj; exact Hjoin).
      destruct conn' as [c|]; unfold conn_Close, emit, ret;
        cbn [add_events set_join jobs buf join trace]; rewrite Hj2; cbn;
        unfold s', add_events, set_join; cbn; now rewrite <- ?app_assoc.
  - reflexivity.
  - cbn [world]. unfold s'. cbn [add_events set_join jobs]. exact Hjobs.
Qed.

(** ** The bytes of the stream *)

Lemma written_app (t1 t2 : list event) : written (t1 ++ t2) = written t1 ++ written t2.
Proof.
  induction t1 as [|e t1 IH]; [reflexivity|].
  destruct e; cbn; rewrite ?IH, <- ?app_assoc; reflexivity.
Qed.

Lemma written_producer_events (es : list event) :
  forallb is_producer_event es = true -> written es = [].
Proof.
  induction es as [|e es IH]; [reflexivity|].
  cbn [forallb]. intros H. apply andb_true_iff in H as [He Hes].
  destruct e; cbn in He; try discriminate; cbn; auto.
Qed.

Lemma written_stderr (l : list string) : written (map EvStderr l) = [].
Proof. induction l; [reflexivity | exact IHl]. Qed.

Lemma written_reported (config : Config) (err : error) (n : nat) :
  written (reported config err n) = [].
Proof.
  unfold reported, report_events. destruct (Fail config) as [f|]; [|reflexivity].
  cbn [written]. rewrite written_app, written_stderr.
  now destruct (cb_panic (f err n)).
Qed.

Lemma conserving_ret {A} (a : A) : conserving (ret a).
Proof. intros s. reflexivity. Qed.

Lemma conserving_bind {A B} (m : M A) (f : A -> M B) :
  conserving m -> (forall a, conserving (f a)) -> conserving (bind m f).
Proof.
  intros Hm Hf s. unfold bind. specialize (Hm s).
  destruct (m s) as [[a|v|] s1]; cbn [snd] in *; try exact Hm.
  rewrite <- Hm. apply Hf.
Qed.

Lemma conserving_emit (e : event) :
  (forall c p, e <> EvWrite c p) -> conserving (emit e).
Proof.
  intros He s. unfold emit. cbn [snd add_events trace buf].
  rewrite written_app.
  destruct e; cbn; rewrite ?app_nil_r; try reflexivity.
  now elim (He c p).
Qed.

Lemma conserving_handleError (err : error) (config : Config) :
  conserving (handleError err config).
Proof.
  intros s. rewrite handleError_eq. cbn [snd add_events trace buf].
  now rewrite written_app, written_reported, app_nil_r.
Qed.

Lemma conserving_dial (config : Config) : conserving (dial config).
Proof.
  unfold dial. apply conserving_bind.
  - intros s. unfold call_Dial. destruct (Dial config); cbn [snd]; [|reflexivity].
    cbn [add_events trace buf]. rewrite written_app. cbn. now rewrite app_nil_r.
  - intros r. apply conserving_bind; [|intros; apply conserving_ret].
    destruct (snd r); [apply conserving_handleError | apply conserving_ret].
Qed.

Lemma conserving_connect_loop (fuel : nat) (config : Config) (r : Duration) :
  conserving (connect_loop fuel config r).
Proof.
  revert r. induction fuel as [|fuel IH]; intros r.
  - intros s. reflexivity.
  - cbn [connect_loop]. apply conserving_bind; [apply conserving_dial|].
    intros [c|]; [apply conserving_ret|].
    apply conserving_bind.
    + unfold sleep. apply conserving_bind; [|intros; apply conserving_ret].
      apply conserving_emit. discriminate.
    + intros r'. apply IH.
Qed.

Lemma conserving_ensure_conn (fuel : nat) (config : Config) (conn : option Conn) :
  conserving (ensure_conn fuel config conn).
Proof.
  destruct conn as [c|]; cbn [ensure_conn]; [apply conserving_ret|].
  apply conserving_bind; [apply conserving_connect_loop | intros; apply conserving_ret].
Qed.

(** A flush moves bytes from the buffer to a connection and does nothing
    else to them. *)
Lemma conserving_flushN (conn : option Conn) (config : Config) (n : Z) :
  conserving (flushN conn config n).
Proof.
  destruct conn as [c|]; [|intros s; reflexivity].
  intros s. destruct (Z.ltb_spec n 0) as [Hneg|Hpos].
  - unfold flushN, bind, SetWriteDeadline.
    destruct (conn_SetWriteDeadline c _) as [e|].
    + unfold ret, conn_Close, emit. rewrite handleError_eq.
      cbn [snd add_events trace buf].
      rewrite !written_app, written_reported. cbn. now rewrite !app_nil_r.
    + unfold buf_Next.
      destruct (Z.ltb_spec n 0); [|lia].
      cbn [snd add_events trace buf]. rewrite written_app. cbn.
      now rewrite app_nil_r.
  - rewrite flushN_some_eq by exact Hpos. cbv zeta.
    destruct (conn_SetWriteDeadline c _) as [e|];
      [|destruct (conn_Write c _ _) as [e|]];
      cbn [snd add_events set_buf trace buf]; rewrite written_app;
      cbn [written]; rewrite ?written_reported; cbn [app];
      rewrite ?app_nil_r, <- ?app_assoc, ?firstn_skipn; reflexivity.
Qed.

Lemma conserving_flush (conn : option Conn) (config : Config) :
  conserving (flush conn config).
Proof.
  unfold flush. apply conserving_bind; [intros s; reflexivity|].
  intros n. apply conserving_flushN.
Qed.

(** Encoding a job adds the bytes of the codec at the end of the stream. *)
Lemma write_stream (conn : option Conn) (j : job) (config : Config) (s : state) :
  written (snd (write conn j config s)).(trace) ++ (snd (write conn j config s)).(buf)
  = written s.(trace) ++ s.(buf) ++ codec_bytes config j.
Proof.
  unfold write, bind at 1. unfold buf_Len at 1. unfold bind at 1.
  unfold job_write, codec_bytes.
  destruct (write_ j _ _ _) as [[p err]|v|]; cbn [snd];
    try (now rewrite app_nil_r).
  assert (Hs1 : written (trace (set_buf (buf s ++ p) s)) ++ buf (set_buf (buf s ++ p) s)
                = written (trace s) ++ buf s ++ p) by reflexivity.
  rewrite <- Hs1. destruct err as [e|].
  - apply (conserving_bind (handleError e config) (fun _ => ret conn));
      [apply conserving_handleError | intros; apply conserving_ret].
  - unfold bind, buf_Len.
    destruct (_ >=? _); [apply conserving_flushN | reflexivity].
Qed.

(** The events of a call of the producer API. *)
Lemma api_events (b : backend) (c : api_call) (s : state) :
  exists es,
    (snd (api b c s)).(trace) = s.(trace) ++ es /\
    forallb is_producer_event es = true.
Proof.
  assert (Hfail : forall fl err s0,
             exists es, snd (call_Fail fl err s0) = add_events es s0 /\
                        forallb is_producer_event es = true).
  { intros [f|] err s0.
    - rewrite call_Fail_some. eexists. split; [reflexivity|].
      cbn [forallb is_producer_event andb].
      induction (cb_stderr _); [reflexivity | exact IHl].
    - exists []. cbn. now rewrite add_events_nil. }
  assert (Henq : forall j,
             exists es, (snd (enqueue j b.(fail) s)).(trace) = s.(trace) ++ es /\
                        forallb is_producer_event es = true).
  { intros j. destruct (closed (jobs s)) eqn:Hc.
    - rewrite (enqueue_closed j b.(fail) s Hc).
      destruct (Hfail b.(fail) (queue_closed_error j) s) as (es & -> & Hes).
      now exists es.
    - destruct (Z.ltb_spec (Z.of_nat (List.length (items (jobs s)))) (cap (jobs s)))
        as [Hlt|Hge].
      + rewrite (enqueue_accepted j b.(fail) s Hc Hlt). now exists [EvEnqueue j].
      + destruct b.(fail) as [f|].
        * rewrite (enqueue_full j f s Hc Hge). cbv zeta.
          set (es1 := EvFail (queue_full_error j) :: map EvStderr _).
          assert (Hes1 : forallb is_producer_event es1 = true).
          { unfold es1. cbn [forallb is_producer_event andb].
            induction (cb_stderr _); [reflexivity | exact IHl]. }
          destruct (cb_panic _).
          -- destruct (Hfail (Some f) (queue_closed_error j) (add_events es1 s))
               as (es & -> & Hes).
             exists (es1 ++ es). cbn [add_events trace].
             rewrite app_assoc, forallb_app, Hes1, Hes. auto.
          -- now exists es1.
        * unfold enqueue, deferred, bind, send_or_default. rewrite Hc.
          destruct (Z.ltb_spec (Z.of_nat (List.length (items (jobs s)))) (cap (jobs s)));
            [lia|].
          exists []. cbn. now rewrite app_nil_r. }
  destruct c as [m v|m v|m v|]; cbn [api];
    try (unfold Set_, Add, Observe, backend_enqueue; apply Henq).
  rewrite Close_signal_eq. cbn [snd].
  destruct (closed (jobs s)).
  - exists []. now rewrite app_nil_r.
  - now exists [EvChanClose].
Qed.

Lemma stream_step (config : Config) (b : backend) (e e' : engine) :
  step config b e e' ->
  written e.(world).(trace) ++ e.(world).(buf)
    = flat_map (codec_bytes config) (received e.(world).(trace)) ->
  written e'.(world).(trace) ++ e'.(world).(buf)
    = flat_map (codec_bytes config) (received e'.(world).(trace)).
Proof.
  intros Hstep Hinv.
  destruct Hstep as
    [e c r s' Hapi
    |e fuel conn' s' Hpos Hconn
    |e sel s1 conn' s' Hpos Hrecv Hhandle
    |e conn' s' Hpos Hhandle
    |e sel s1 conn' s2 s' Hpos Hrecv Hhandle Hexit]; cbn [world].
  - destruct (api_events b c (world e)) as (es & Ht & Hes).
    destruct (api_effect b c (world e)) as (Hbuf & _ & _ & _ & Hrecv & _).
    rewrite Hapi in Ht, Hbuf, Hrecv. cbn [snd] in Ht, Hbuf, Hrecv.
    rewrite Hrecv, Hbuf, Ht, written_app, (written_producer_events es Hes), app_nil_r.
    exact Hinv.
  - pose proof (conserving_ensure_conn fuel config (conn_ e) (world e)) as Hc.
    pose proof (quiet_ensure_conn fuel config (conn_ e) (world e)) as (_ & _ & _ & Hr & _).
    rewrite Hconn in Hc, Hr. cbn [snd] in Hc, Hr. now rewrite Hc, Hr.
  - pose proof (handle_flag sel _ _ _ _ _ _ Hhandle) as Hflag.
    unfold recv_jobs in Hrecv.
    destruct (items (jobs (world e))) as [|j rest].
    + destruct (closed (jobs (world e))); [|discriminate].
      injection Hrecv as <- <-. discriminate Hflag.
    + injection Hrecv as <- <-. cbn [handle] in Hhandle. unfold bind in Hhandle.
      set (s1 := add_events [EvRecv j] _) in *.
      pose proof (write_stream (conn_ e) j config s1) as Hw.
      pose proof (quiet_write (conn_ e) j config s1) as (_ & _ & _ & Hr & _).
      destruct (write (conn_ e) j config s1) as [[c|v|] s3]; try discriminate.
      unfold ret in Hhandle. injection Hhandle as _ <-.
      cbn [snd] in Hw, Hr. rewrite Hw, Hr.
      unfold s1. cbn [add_events set_jobs trace buf].
      rewrite written_app, received_app. cbn [written received].
      rewrite app_nil_r, flat_map_app. cbn [flat_map]. rewrite app_nil_r.
      now rewrite app_assoc, Hinv.
  - cbn [handle] in Hhandle. unfold bind in Hhandle.
    unfold recv_timer in Hhandle. cbn [snd] in Hhandle.
    set (s1 := add_events [EvTick] (world e)) in *.
    pose proof (conserving_flush (conn_ e) config s1) as Hc.
    pose proof (quiet_flush (conn_ e) config s1) as (_ & _ & _ & Hr & _).
    destruct (flush (conn_ e) config s1) as [[c|v|] s3]; try discriminate.
    unfold ret in Hhandle. injection Hhandle as _ <-.
    cbn [snd] in Hc, Hr. rewrite Hc, Hr.
    unfold s1. cbn [add_events trace buf].
    rewrite written_app, received_app. cbn [written received].
    now rewrite !app_nil_r.
  - pose proof (handle_flag sel _ _ _ _ _ _ Hhandle) as Hflag.
    unfold recv_jobs in Hrecv.
    destruct (items (jobs (world e))) as [|j rest].
    + destruct (closed (jobs (world e))); [|discriminate].
      injection Hrecv as <- <-. cbn [handle] in Hhandle. unfold bind in Hhandle.
      set (s1 := add_events [EvRecvClosed] (world e)) in *.
      pose proof (conserving_flush (conn_ e) config s1) as Hc.
      pose proof (quiet_flush (conn_ e) config s1) as (_ & _ & _ & Hr & _).
      destruct (flush (conn_ e) config s1) as [[c|v|] s3]; try discriminate.
      unfold ret in Hhandle. injection Hhandle as _ <-.
      cbn [snd] in Hc, Hr.
      destruct (run_exit_eq _ _ _ Hexit) as (_ & ->).
      cbn [add_events set_join trace buf].
      rewrite written_app, received_app.
      destruct (no_queue_events _ (exit_events_no_queue conn')) as (_ & N2 & _).
      rewrite N2, app_nil_r.
      replace (written (EvTimerStop ::
                 match conn' with Some c => [EvConnClose (conn_id c)] | None => [] end
                 ++ [EvDone])) with (@nil byte) by (now destruct conn').
      rewrite app_nil_r, Hc, Hr.
      unfold s1. cbn [add_events trace buf].
      rewrite written_app, received_app. cbn [written received].
      now rewrite !app_nil_r.
    + injection Hrecv as <- <-. discriminate Hflag.
Qed.

(** X5: in every state the engine can reach, the bytes handed so far to
    connections, followed by the bytes still in the buffer, are the bytes
    the codec wrote for the jobs the worker received, job after job in the
    order of receipt: the engine adds no byte, drops none before it
    reaches a write, and keeps the order. *)
Theorem stream_is_preserved (net_Dial : DialFunc) (config0 config : Config)
        (b : backend) (e0 e : engine) :
  NewBackendWith net_Dial config0 = Ret (config, b, e0) ->
  steps config b e0 e ->
  written e.(world).(trace) ++ e.(world).(buf)
    = flat_map (codec_bytes config) (received e.(world).(trace)).
Proof.
  intros Hnew Hsteps.
  induction Hsteps as [e|e1 e2 e3 _ IH Hstep].
  - unfold NewBackendWith in Hnew.
    destruct (QueueSize (setConfigDefaults net_Dial config0) <? 0); [discriminate|].
    now injection Hnew as _ _ <-.
  - eapply stream_step; [exact Hstep | apply IH; exact Hnew].
Qed.

(** ** The worker drains a closed queue and returns *)





(** ** Concrete runs of the further properties *)

Lemma sample_run_waiting :
  steps sample_config sample_backend sample_start sample_waiting.
Proof.
  eapply steps_step.
  - eapply steps_step.
    + eapply steps_step.
      * eapply steps_step.
        -- eapply steps_step.
           ++ apply steps_refl.
           ++ eapply step_api with (c := CallSet sample_metric 1). reflexivity.
        -- eapply step_api with (c := CallClose). reflexivity.
      * eapply step_connect with (fuel := 1%nat); reflexivity.
    + eapply step_jobs; reflexivity.
  - eapply step_connect with (fuel := 0%nat); reflexivity.
Qed.


(** X11 at work: no callback is configured, the write failed. *)
Lemma default_failure_report_witness :
  silent_config.(Fail) = None /\
  handleError "broken pipe" (setConfigDefaults sample_dial silent_config)
    empty_state =
  (Ret tt,
   add_events
     [EvFail "broken pipe";
      EvStderr (String.append "stats: " (String.append "broken pipe" newline))]
     empty_state).
Proof.
  split; [reflexivity|].
  exact (default_failure_report sample_dial silent_config "broken pipe"
           empty_state eq_refl).
Defined.

(** X10 at work: a submission to a full queue of one. *)
Lemma submission_outcomes_witness :
  (forall e n, (quiet_fail e n).(cb_panic) = None) /\
  fst (Set_ sample_backend sample_metric 2 full_state) = Ret tt /\
  (snd (Set_ sample_backend sample_metric 2 full_state)).(jobs) = full_state.(jobs) /\
  failures (snd (Set_ sample_backend sample_metric 2 full_state)).(trace) =
    ["discarding requests because the metric queue is full"].
Proof.
  assert (Hok : forall e n, (quiet_fail e n).(cb_panic) = None)
    by (intros; reflexivity).
  split; [exact Hok|].
  destruct (submission_outcomes quiet_fail sample_metric (Float64 2) set
              full_state Hok) as (Hret & _ & _ & _ & Hfull & _).
  split; [exact Hret|].
  assert (Hcap : full_state.(jobs).(cap)
                 <= Z.of_nat (List.length full_state.(jobs).(items)))
    by (cbn; lia).
  exact (Hfull eq_refl Hcap).
Defined.

(** X7 at work: the timer fires on a buffer of three bytes, below the
    threshold of four. *)
Lemma timer_flush_empties_buffer_witness :
  step sample_config sample_backend
    {| world := buffered_state; conn_ := Some good_conn; pos := AtSelect |}
    {| world :=
         add_events
           [EvTick; EvSetWriteDeadline 1 (1 * Second);
            EvWrite 1 ["a"%byte; "b"%byte; "c"%byte]]
           (set_buf [] buffered_state);
       conn_ := Some good_conn;
       pos := AtLoopTop |}.
Proof.
  exact (timer_flush_empties_buffer sample_config sample_backend
           {| world := buffered_state; conn_ := Some good_conn; pos := AtSelect |}
           good_conn eq_refl eq_refl eq_refl eq_refl).
Defined.

(** X4 at work: the sample engine at its end. *)
Lemma queue_is_fifo_witness :
  reachable sample_dial sample_config sample_end /\
  enqueued sample_end.(world).(trace) = [set_job] /\
  received sample_end.(world).(trace) ++ sample_end.(world).(jobs).(items)
    = [set_job].
Proof.
  assert (Hreach : reachable sample_dial sample_config sample_end).
  { exists sample_config, sample_backend, sample_start.
    split; [exact sample_new | exact sample_run]. }
  split; [exact Hreach|]. split; [reflexivity|].
  rewrite <- (queue_is_fifo sample_dial sample_config sample_end Hreach).
  reflexivity.
Defined.

(** X3 at work: the sample engine while the worker waits. *)
Lemma queue_within_capacity_witness :
  NewBackendWith sample_dial sample_config
    = Ret (sample_config, sample_backend, sample_start) /\
  steps sample_config sample_backend sample_start sample_waiting /\
  sample_waiting.(world).(jobs).(cap) = 2 /\
  Z.of_nat (List.length sample_waiting.(world).(jobs).(items))
    <= sample_waiting.(world).(jobs).(cap).
Proof.
  split; [exact sample_new|]. split; [exact sample_run_waiting|].
  exact (queue_within_capacity sample_dial sample_config sample_config
           sample_backend sample_start sample_waiting sample_new
           sample_run_waiting).
Defined.

(** X5 at work: at the end of the sample engine the one byte of the one
    job has been written. *)
Lemma stream_is_preserved_witness :
  NewBackendWith sample_dial sample_config
    = Ret (sample_config, sample_backend, sample_start) /\
  steps sample_config sample_backend sample_start sample_end /\
  written sample_end.(world).(trace) ++ sample_end.(world).(buf)
    = flat_map (codec_bytes sample_config) [set_job].
Proof.
  split; [exact sample_new|]. split; [exact sample_run|].
  exact (stream_is_preserved sample_dial sample_config sample_config
           sample_backend sample_start sample_end sample_new sample_run).
Defined.

(** X9 at work: the sample engine while the worker waits on the closed
    and empty queue. *)
Lemma exit_is_open_witness :
  NewBackendWith sample_dial sample_config
    = Ret (sample_config, sample_backend, sample_start) /\
  steps sample_config sample_backend sample_start sample_waiting /\
  exists e',
    step sample_config sample_backend sample_waiting e' /\
    e'.(pos) = Exited /\ Close_may_return e'.(world) /\
    e'.(world).(jobs) = sample_waiting.(world).(jobs).
Proof.
  split; [exact sample_new|]. split; [exact sample_run_waiting|].
  exact (exit_is_open sample_dial sample_config sample_config sample_backend
           sample_start sample_waiting sample_new sample_run_waiting
           eq_refl eq_refl eq_refl).
Defined.


(** * The text helpers *)

Lemma byte_eqb_refl (c : byte) : Byte.eqb c c = true.
Proof. now apply Byte.byte_dec_lb. Qed.

Lemma byte_eqb_neq (x c : byte) : x <> c -> Byte.eqb x c = false.
Proof.
  intros Hne. destruct (Byte.eqb x c) eqn:E; [|reflexivity].
  now elim Hne; apply Byte.byte_dec_bl.
Qed.

Lemma IndexByte_absent (s : list byte) (c : byte) :
  ~ In c s -> IndexByte s c = -1.
Proof.
  induction s as [|x s IH]; [reflexivity|].
  intros Hnot. cbn [IndexByte].
  rewrite byte_eqb_neq by (intros ->; apply Hnot; now left).
  rewrite IH by (intros Hin; apply Hnot; now right). reflexivity.
Qed.

Lemma IndexByte_first (l r : list byte) (c : byte) :
  ~ In c l -> IndexByte (l ++ c :: r) c = Z.of_nat (List.length l).
Proof.
  induction l as [|x l IH]; intros Hnot.
  - cbn. now rewrite byte_eqb_refl.
  - cbn [app IndexByte].
    rewrite byte_eqb_neq by (intros ->; apply Hnot; now left).
    rewrite IH by (intros Hin; apply Hnot; now right).
    destruct (Z.ltb_spec (Z.of_nat (List.length l)) 0); [lia|].
    cbn [List.length]. lia.
Qed.

(** A text either has no [c], or splits at its first [c]. *)
Lemma first_occurrence (s : list byte) (c : byte) :
  ~ In c s \/ exists l r, s = l ++ c :: r /\ ~ In c l.
Proof.
  induction s as [|x s IH]; [left; intros []|].
  destruct (Byte.byte_eq_dec x c) as [->|Hne].
  - right. exists [], s. split; [reflexivity | intros []].
  - destruct IH as [Hnot|(l & r & -> & Hl)].
    + left. intros [Hx|Hin]; [now apply Hne | now apply Hnot].
    + right. exists (x :: l), r. split; [reflexivity|].
      intros [Hx|Hin]; [now apply Hne | now apply Hl].
Qed.

Lemma slices_at_first (l r : list byte) (c : byte) :
  slice_to (l ++ c :: r) (Z.of_nat (List.length l)) = l /\
  slice_from (l ++ c :: r) (Z.of_nat (List.length l) + 1) = r.
Proof.
  unfold slice_to, slice_from. split.
  - rewrite Nat2Z.id, firstn_app, Nat.sub_diag, firstn_all. cbn. apply app_nil_r.
  - replace (Z.to_nat (Z.of_nat (List.length l) + 1)) with (List.length l + 1)%nat by lia.
    rewrite skipn_app. replace (List.length l + 1 - List.length l)%nat with 1%nat by lia.
    rewrite skipn_all2 by lia. reflexivity.
Qed.

Lemma segments_no_newline (text : list byte) :
  text <> [] -> ~ In newline_byte text -> segments text = [text].
Proof.
  induction text as [|c rest IH]; [congruence|].
  intros _ Hnot. cbn [segments].
  rewrite byte_eqb_neq by (intros ->; apply Hnot; now left).
  destruct rest as [|c' rest']; [reflexivity|].
  rewrite IH; [reflexivity | discriminate | intros Hin; apply Hnot; now right].
Qed.

Lemma segments_first (l r : list byte) :
  ~ In newline_byte l -> segments (l ++ newline_byte :: r) = l :: segments r.
Proof.
  induction l as [|c l IH]; intros Hnot.
  - reflexivity.
  - cbn [app segments].
    rewrite byte_eqb_neq by (intros ->; apply Hnot; now left).
    rewrite IH by (intros Hin; apply Hnot; now right). reflexivity.
Qed.

Section ParseProofs.

Variable TrimSpace : list byte -> list byte.

Lemma forEachLine_loop_lines {St : Type} (call : list byte -> St -> St)
      (fuel : nat) :
  forall (text : list byte) (s : St),
    (List.length text <= fuel)%nat ->
    forEachLine_loop TrimSpace fuel text call s =
    fold_left (fun s l => call l s) (lines TrimSpace text) s.
Proof.
  induction fuel as [|fuel IH]; intros text s Hlen.
  - destruct text; [reflexivity | cbn in Hlen; lia].
  - cbn [forEachLine_loop].
    destruct (Nat.eqb (List.length text) 0) eqn:Hempty.
    { destruct text; [reflexivity | discriminate]. }
    assert (Hne : text <> []) by (intros ->; discriminate).
    destruct (first_occurrence text newline_byte) as [Hnot|(l & r & Hsplit & Hl)].
    + rewrite (IndexByte_absent text newline_byte Hnot). cbn [Z.geb Z.compare fst snd].
      unfold lines. rewrite (segments_no_newline text Hne Hnot).
      cbn [map filter]. unfold nonempty.
      destruct fuel; destruct (Nat.eqb (List.length (TrimSpace text)) 0); reflexivity.
    + subst text. rewrite (IndexByte_first l r newline_byte Hl).
      destruct (Z.geb_spec (Z.of_nat (List.length l)) 0); [|lia].
      destruct (slices_at_first l r newline_byte) as (-> & ->). cbn [fst snd].
      rewrite IH.
      * unfold lines. rewrite (segments_first l r Hl). cbn [map filter].
        unfold nonempty.
        destruct (Nat.eqb (List.length (TrimSpace l)) 0); reflexivity.
      * rewrite length_app in Hlen. cbn [List.length] in Hlen. lia.
Qed.

Lemma unlines_segments (text : list byte) :
  Forall (fun seg => ~ In newline_byte seg) (segments text) /\
  (unlines (segments text) = text \/
   unlines (segments text) = text ++ [newline_byte]).
Proof.
  induction text as [|c rest (IHall & IHun)].
  - split; [constructor | now left].
  - cbn [segments]. destruct (Byte.byte_eq_dec c newline_byte) as [->|Hne].
    + rewrite byte_eqb_refl. split.
      * constructor; [intros [] | exact IHall].
      * unfold unlines in *. cbn [flat_map app].
        destruct IHun as [->| ->]; [now left | now right].
    + rewrite (byte_eqb_neq c newline_byte Hne).
      destruct (segments rest) as [|seg segs] eqn:Hsegs.
      * assert (Hrest : rest = []).
        { destruct rest as [|c' rest']; [reflexivity|].
          cbn [segments] in Hsegs.
          destruct (Byte.eqb c' newline_byte); [discriminate|].
          destruct (segments rest'); discriminate. }
        subst rest. split.
        -- constructor; [|constructor]. intros [Hc|[]]. now apply Hne.
        -- now right.
      * inversion IHall as [|seg0 segs0 Hseg Hrest0]; subst. split.
        -- constructor; [|exact Hrest0]. intros [Hc|Hin]; [now apply Hne | now apply Hseg].
        -- unfold unlines in *. cbn [flat_map app] in *.
           destruct IHun as [Hun|Hun]; [left | right]; now rewrite Hun.
Qed.

End ParseProofs.

(** X12: [forEachLine] cuts the text at its newlines (a final newline ends
    the last piece and opens no new one), trims each piece, and calls the
    callback once for each trimmed piece that is not empty, in the order
    of the text.  The cutting loses nothing: no piece has a newline, and
    the pieces, each followed by a newline, give back the text, or the
    text and one newline when the text does not end with one. *)
Theorem forEachLine_lines (TrimSpace : list byte -> list byte) {St : Type}
        (text : list byte) (call : list byte -> St -> St) (s : St) :
  forEachLine TrimSpace text call s =
    fold_left (fun s l => call l s)
      (filter nonempty (map TrimSpace (segments text))) s /\
  Forall (fun seg => ~ In newline_byte seg) (segments text) /\
  (unlines (segments text) = text \/
   unlines (segments text) = text ++ [newline_byte]).
Proof.
  split; [|apply unlines_segments].
  unfold forEachLine. now rewrite forEachLine_loop_lines.
Qed.

Lemma fold_skipping_first {St : Type} (call : list byte -> St -> St)
      (ls : list (list byte)) :
  forall (s : St),
    snd (fold_left
           (fun (st : bool * St) line =>
              if fst st then (false, snd st) else (fst st, call line (snd st)))
           ls (false, s))
    = fold_left (fun s l => call l s) ls s.
Proof.
  induction ls as [|l ls IH]; intros s; [reflexivity|].
  cbn [fold_left fst snd]. apply IH.
Qed.

(** X13: [forEachLineExceptFirst] calls the callback for the lines of
    [forEachLine] but the first, in their order; the line it leaves out is
    the first line that is not blank, not the first piece of the text. *)
Theorem forEachLineExceptFirst_tail (TrimSpace : list byte -> list byte)
        {St : Type} (text : list byte) (call : list byte -> St -> St) (s : St) :
  forEachLineExceptFirst TrimSpace text call s =
  fold_left (fun s l => call l s)
    (tl (filter nonempty (map TrimSpace (segments text)))) s.
Proof.
  unfold forEachLineExceptFirst, forEachLine.
  rewrite forEachLine_loop_lines by lia. unfold lines.
  destruct (filter nonempty (map TrimSpace (segments text))) as [|l ls];
    [reflexivity|].
  cbn [fold_left fst snd tl]. apply fold_skipping_first.
Qed.

(** X14: [splitProperty] splits at the first colon and trims both parts:
    later colons stay in the value.  Without a colon the key is the
    trimmed empty string and the value the trimmed text. *)
Theorem splitProperty_first_colon (TrimSpace : list byte -> list byte) :
  (forall k v : list byte,
     ~ In colon_byte k ->
     splitProperty TrimSpace (k ++ colon_byte :: v) = (TrimSpace k, TrimSpace v)) /\
  (forall text : list byte,
     ~ In colon_byte text ->
     splitProperty TrimSpace text = (TrimSpace [], TrimSpace text)).
Proof.
  split.
  - intros k v Hk. unfold splitProperty.
    rewrite (IndexByte_first k v colon_byte Hk).
    destruct (Z.geb_spec (Z.of_nat (List.length k)) 0); [|lia].
    now destruct (slices_at_first k v colon_byte) as (-> & ->).
  - intros text Hnot. unfold splitProperty.
    now rewrite (IndexByte_absent text colon_byte Hnot).
Qed.

(** X15: [skipLine] returns what follows the first newline, and the empty
    string when there is none; and scanning a text with [forEachLine] is
    handling its first piece and then scanning what [skipLine] leaves. *)
Theorem skipLine_then_forEachLine (TrimSpace : list byte -> list byte) :
  (forall l r : list byte,
     ~ In newline_byte l -> skipLine (l ++ newline_byte :: r) = r) /\
  (forall text : list byte, ~ In newline_byte text -> skipLine text = []) /\
  (forall (St : Type) (text : list byte) (call : list byte -> St -> St) (s : St),
     text <> [] ->
     forEachLine TrimSpace text call s =
     forEachLine TrimSpace (skipLine text) call
       (let line := TrimSpace (hd [] (segments text)) in
        if Nat.eqb (List.length line) 0 then s else call line s)).
Proof.
  assert (Hskip : forall l r : list byte,
             ~ In newline_byte l -> skipLine (l ++ newline_byte :: r) = r).
  { intros l r Hl. unfold skipLine. rewrite (IndexByte_first l r newline_byte Hl).
    destruct (Z.geb_spec (Z.of_nat (List.length l)) 0); [|lia].
    now destruct (slices_at_first l r newline_byte) as (_ & ->). }
  assert (Hnone : forall text : list byte,
             ~ In newline_byte text -> skipLine text = []).
  { intros text Hnot. unfold skipLine.
    now rewrite (IndexByte_absent text newline_byte Hnot). }
  split; [exact Hskip | split; [exact Hnone|]].
  intros St text call s Hne. cbv zeta. unfold forEachLine.
  rewrite !forEachLine_loop_lines by lia. unfold lines.
  destruct (first_occurrence text newline_byte) as [Hnot|(l & r & -> & Hl)].
  - rewrite (Hnone text Hnot), (segments_no_newline text Hne Hnot).
    cbn [segments map filter hd fold_left]. unfold nonempty.
    now destruct (Nat.eqb (List.length (TrimSpace text)) 0).
  - rewrite (Hskip l r Hl), (segments_first l r Hl).
    cbn [map filter hd]. unfold nonempty.
    now destruct (Nat.eqb (List.length (TrimSpace l)) 0).
Qed.

(** The sample text has a heading after a blank, an empty line and one
    property whose value has a colon. *)
Lemma forEachLine_sample :
  forEachLine trim_blank sample_text (fun l acc => acc ++ [l]) [] =
  [["h"; "e"; "a"; "d"]%byte;
   ["M"; "e"; "m"; ":"; x20; "1"; "2"; ":"; "3"; "0"]%byte] /\
  forEachLineExceptFirst trim_blank sample_text (fun l acc => acc ++ [l]) [] =
  [["M"; "e"; "m"; ":"; x20; "1"; "2"; ":"; "3"; "0"]%byte] /\
  forEachProperty trim_blank sample_text (fun k v acc => acc ++ [(k, v)]) [] =
  [([], ["h"; "e"; "a"; "d"]%byte);
   (["M"; "e"; "m"]%byte, ["1"; "2"; ":"; "3"; "0"]%byte)].
Proof. repeat split. Qed.

(** X14 at work: the value keeps its colon. *)
Lemma splitProperty_first_colon_witness :
  ~ In colon_byte ["M"; "e"; "m"]%byte /\
  splitProperty trim_blank
    (["M"; "e"; "m"] ++ colon_byte :: [x20; "1"; "2"; ":"; "3"; "0"])%byte
  = (["M"; "e"; "m"]%byte, ["1"; "2"; ":"; "3"; "0"]%byte).
Proof.
  assert (Hk : ~ In colon_byte ["M"; "e"; "m"]%byte).
  { intros [H|[H|[H|[]]]]; discriminate H. }
  split; [exact Hk|].
  exact (proj1 (splitProperty_first_colon trim_blank)
           ["M"; "e"; "m"]%byte [x20; "1"; "2"; ":"; "3"; "0"]%byte Hk).
Defined.

(** X15 at work: after the heading of the sample text. *)
Lemma skipLine_then_forEachLine_witness :
  ~ In newline_byte [x20; "h"; "e"; "a"; "d"]%byte /\
  skipLine sample_text =
  [x0a; "M"; "e"; "m"; ":"; x20; "1"; "2"; ":"; "3"; "0"; x0a]%byte.
Proof.
  assert (Hl : ~ In newline_byte [x20; "h"; "e"; "a"; "d"]%byte).
  { intros [H|[H|[H|[H|[H|[]]]]]]; discriminate H. }
  split; [exact Hl|].
  exact (proj1 (skipLine_then_forEachLine trim_blank)
           [x20; "h"; "e"; "a"; "d"]%byte
           [x0a; "M"; "e"; "m"; ":"; x20; "1"; "2"; ":"; "3"; "0"; x0a]%byte Hl).
Defined.
